(** * Deadlock lab: the bank transfer engine of [labs/deadlock/starter]

    A shallow embedding of [bank.c] and of the helpers of [common.h]
    it uses.  Every C function is a program in a small monad of
    primitive operations: mutex calls, loads and stores of a balance,
    atomic counter increments, [rand] and [usleep].  The operations
    have one semantics, [exec_op].  It is used to run one thread alone
    ([run], which also records the trace of operations) and to
    interleave the worker threads that [main] creates
    ([exec_schedule]).

    The file first gives the code and its semantics, then the
    observations and the locking discipline the properties are stated
    with, then the properties: the behaviour of each transfer function
    and of the worker's retry loop, the argument checks of [main], and
    the conservation of the total balance over all interleavings. *)

From Stdlib Require Import ZArith Lia String Ascii.
From stdpp Require Import base list.

Local Open Scope Z_scope.

(** ** Constants of [common.h] and of the C library *)

Definition NUM_ACCOUNTS : Z := 10.
Definition NUM_THREADS : Z := 8.
Definition TRANSFERS_PER_THREAD : Z := 1000.
Definition INITIAL_BALANCE : Z := 1000.

(** [errno.h] on Linux; the code only compares against it. *)
Definition ETIMEDOUT : Z := 110.

(** [stdlib.h] of glibc; [rand()] returns a value in [0, RAND_MAX]. *)
Definition RAND_MAX : Z := 2147483647.

(** ** Data *)

(** [account_t].  The mutex is represented by its owner: [None] when
    unlocked, [Some tid] when thread [tid] holds it.  Balances are C
    [int]s; signed overflow is undefined in C and the model keeps the
    mathematical value. *)
Record account_t : Type := Account {
  id : Z;
  balance : Z;
  lock : option nat
}.

Definition set_balance (a : account_t) (v : Z) : account_t :=
  {| id := id a; balance := v; lock := lock a |}.

Definition set_lock (a : account_t) (o : option nat) : account_t :=
  {| id := id a; balance := balance a; lock := o |}.

(** [struct stats]: four [uint64_t] counters. *)
Record stats_t : Type := Stats {
  successful_transfers : Z;
  failed_transfers : Z;
  deadlock_detections : Z;
  retries : Z
}.

Inductive counter : Type :=
| c_successful_transfers
| c_failed_transfers
| c_deadlock_detections
| c_retries.

Definition get_counter (c : counter) (s : stats_t) : Z :=
  match c with
  | c_successful_transfers => successful_transfers s
  | c_failed_transfers => failed_transfers s
  | c_deadlock_detections => deadlock_detections s
  | c_retries => retries s
  end.

Definition set_counter (c : counter) (v : Z) (s : stats_t) : stats_t :=
  match c with
  | c_successful_transfers =>
      Stats v (failed_transfers s) (deadlock_detections s) (retries s)
  | c_failed_transfers =>
      Stats (successful_transfers s) v (deadlock_detections s) (retries s)
  | c_deadlock_detections =>
      Stats (successful_transfers s) (failed_transfers s) v (retries s)
  | c_retries =>
      Stats (successful_transfers s) (failed_transfers s)
            (deadlock_detections s) v
  end.

(** Wrap-around of a [uint64_t]. *)
Definition wrap64 (z : Z) : Z := z mod 2 ^ 64.

(** [struct worker_args]; the [accounts] pointer is the shared array
    itself. *)
Record worker_args : Type := WorkerArgs {
  num_accounts : Z;
  mode : Z;
  transfers : Z
}.

(** The memory shared by all threads: the account array, the global
    [stats], and the state of the C library's generator, kept as the
    number of [rand()] calls made so far. *)
Record shared : Type := Shared {
  accounts : list account_t;
  stats : stats_t;
  rand_calls : nat
}.

(** ** Programs *)

(** The primitive operations the code performs on shared memory.  An
    [account_t *] is the index of the account in the array.  The
    compound assignment [p->balance -= amount] is a load followed by a
    store: it is not atomic. *)
Inductive op : Type :=
| pthread_mutex_lock (a : nat)
| pthread_mutex_unlock (a : nat)
| load_balance (a : nat)
| store_balance (a : nat) (v : Z)
| sync_fetch_and_add (c : counter)
| rand
| usleep (us : Z).

(** A program performs operations one after the other, each
    continuation receiving the operation's result.  [OutOfFuel] marks
    a loop cut off by its iteration bound. *)
Inductive prog (A : Type) : Type :=
| Ret (a : A)
| Op (e : op) (k : Z -> prog A)
| OutOfFuel.

Arguments Ret {A} a.
Arguments Op {A} e k.
Arguments OutOfFuel {A}.

Fixpoint bind {A B : Type} (p : prog A) (f : A -> prog B) : prog B :=
  match p with
  | Ret a => f a
  | Op e k => Op e (fun x => bind (k x) f)
  | OutOfFuel => OutOfFuel
  end.

Definition call (e : op) : prog Z := Op e Ret.

Declare Scope prog_scope.
Delimit Scope prog_scope with prog.
Notation "x <- p ;; q" := (bind p (fun x => q))
  (at level 100, p at next level, right associativity) : prog_scope.
Notation "p ;; q" := (bind p (fun _ => q))
  (at level 100, right associativity) : prog_scope.
Local Open Scope prog_scope.

(** ** The code of [bank.c] *)

(** [from->balance -= amount; to->balance += amount;] *)
Definition perform_transfer (from to : nat) (amount : Z) : prog Z :=
  b <- call (load_balance from) ;;
  call (store_balance from (b - amount)) ;;
  b' <- call (load_balance to) ;;
  call (store_balance to (b' + amount)).

(** Part 1, lines 51-70. *)
Definition transfer_naive (from to : nat) (amount : Z) : prog unit :=
  call (pthread_mutex_lock from) ;;
  call (usleep 1) ;;
  call (pthread_mutex_lock to) ;;
  perform_transfer from to amount ;;
  call (pthread_mutex_unlock to) ;;
  call (pthread_mutex_unlock from) ;;
  call (sync_fetch_and_add c_successful_transfers) ;;
  Ret tt.

(** Lines 83-86: the body is the placeholder [return ETIMEDOUT]. *)
Definition mutex_trylock_timed (lock : nat) (timeout_ms : Z) : prog Z :=
  Ret ETIMEDOUT.

(** Part 2, lines 104-133.  The two timeout branches contain only
    comments before their [return -1]. *)
Definition transfer_timeout (from to : nat) (amount : Z) : prog Z :=
  ret1 <- mutex_trylock_timed from 100 ;;
  if ret1 =? ETIMEDOUT then Ret (-1)
  else
    call (usleep 1) ;;
    ret2 <- mutex_trylock_timed to 100 ;;
    if ret2 =? ETIMEDOUT then Ret (-1)
    else
      perform_transfer from to amount ;;
      call (pthread_mutex_unlock to) ;;
      call (pthread_mutex_unlock from) ;;
      call (sync_fetch_and_add c_successful_transfers) ;;
      Ret 0.

(** Part 3A, lines 153-170: the body is the counter increment. *)
Definition transfer_ordered (from to : nat) (amount : Z) : prog unit :=
  call (sync_fetch_and_add c_successful_transfers) ;;
  Ret tt.

(** Part 3B, lines 194-198: the body is [return -1]. *)
Definition transfer_trylock (from to : nat) (amount : Z) : prog Z :=
  Ret (-1).

(** *** The worker, lines 201-247 *)

Definition max_retries : Z := 1000.

(** The [while] loops of lines 224-231 and 235-242, which differ in
    the transfer function called and in the sleep before the next
    attempt.  The result is the value of the local [retry_count] when
    the loop is left.  [fuel] bounds the number of iterations. *)
Fixpoint retry_loop (fuel : nat) (attempt : prog Z) (backoff : prog Z)
    (retry_count : Z) : prog Z :=
  match fuel with
  | O => OutOfFuel
  | S fuel' =>
      r <- attempt ;;
      if r =? 0 then Ret retry_count
      else
        call (sync_fetch_and_add c_retries) ;;
        let retry_count := retry_count + 1 in
        if retry_count >? max_retries then
          call (sync_fetch_and_add c_failed_transfers) ;;
          Ret retry_count
        else
          backoff ;;
          retry_loop fuel' attempt backoff retry_count
  end.

(** Enough iterations for [retry_count] to pass [max_retries]. *)
Definition retry_fuel : nat := S (Z.to_nat max_retries).

(** Lines 206-215: the draws.  [None] is the [continue] of line 210. *)
Definition worker_select (args : worker_args) : prog (option (Z * Z * Z)) :=
  r1 <- call rand ;;
  let from_id := Z.rem r1 (num_accounts args) in
  r2 <- call rand ;;
  let to_id := Z.rem r2 (num_accounts args) in
  if from_id =? to_id then Ret None
  else
    r3 <- call rand ;;
    let amount := 1 + Z.rem r3 10 in
    Ret (Some (from_id, to_id, amount)).

(** Lines 218-243: the call of the transfer function of the mode. *)
Definition worker_dispatch (args : worker_args) (from to : nat) (amount : Z)
    : prog unit :=
  let retry_count := 0 in
  if mode args =? 0 then
    transfer_naive from to amount
  else if mode args =? 1 then
    retry_loop retry_fuel (transfer_timeout from to amount)
               (call (usleep (10 * 1000))) retry_count ;;
    Ret tt
  else if mode args =? 2 then
    transfer_ordered from to amount
  else if mode args =? 3 then
    retry_loop retry_fuel (transfer_trylock from to amount)
               (r <- call rand ;; call (usleep (Z.rem r 1000000)))
               retry_count ;;
    Ret tt
  else Ret tt.

(** One iteration of the [for] loop of line 204, entered with [i];
    the result is the value of [i] after the loop's [i++].  On equal
    draws the body does [i--; continue;], so the increment restores
    [i]. *)
Definition worker_body (args : worker_args) (i : Z) : prog Z :=
  sel <- worker_select args ;;
  match sel with
  | None => Ret (i - 1 + 1)
  | Some (from_id, to_id, amount) =>
      worker_dispatch args (Z.to_nat from_id) (Z.to_nat to_id) amount ;;
      Ret (i + 1)
  end.

(** ** Semantics of the operations *)

(** What an operation does when thread [tid] performs it: it returns
    a value and a new memory, or the thread has to wait (a blocking
    lock on a held mutex), or the behaviour is undefined (an account
    outside the array, unlocking a mutex the thread does not hold). *)
Inductive op_result : Type :=
| Ok (x : Z) (s : shared)
| Wait
| Fault.

Definition update_account (s : shared) (a : nat) (acc : account_t) : shared :=
  Shared (<[a := acc]> (accounts s)) (stats s) (rand_calls s).

(** [rnd] is the sequence the generator produces after [srand]; any
    sequence of integers stands for one, each value reduced into
    [0, RAND_MAX]. *)
Definition exec_op (rnd : nat -> Z) (tid : nat) (e : op) (s : shared)
    : op_result :=
  match e with
  | pthread_mutex_lock a =>
      match accounts s !! a with
      | None => Fault
      | Some acc =>
          match lock acc with
          | None => Ok 0 (update_account s a (set_lock acc (Some tid)))
          | Some _ => Wait
          end
      end
  | pthread_mutex_unlock a =>
      match accounts s !! a with
      | None => Fault
      | Some acc =>
          match lock acc with
          | Some owner =>
              if Nat.eqb owner tid
              then Ok 0 (update_account s a (set_lock acc None))
              else Fault
          | None => Fault
          end
      end
  | load_balance a =>
      match accounts s !! a with
      | None => Fault
      | Some acc => Ok (balance acc) s
      end
  | store_balance a v =>
      match accounts s !! a with
      | None => Fault
      | Some acc => Ok v (update_account s a (set_balance acc v))
      end
  | sync_fetch_and_add c =>
      let old := get_counter c (stats s) in
      Ok old (Shared (accounts s) (set_counter c (wrap64 (old + 1)) (stats s))
                     (rand_calls s))
  | rand =>
      Ok (rnd (rand_calls s) mod (RAND_MAX + 1))
         (Shared (accounts s) (stats s) (S (rand_calls s)))
  | usleep _ => Ok 0 s
  end.

(** *** One thread running alone *)

Inductive outcome (A : Type) : Type :=
| Done (a : A) (s : shared)
| Blocked (e : op) (s : shared)
| Undefined (e : op) (s : shared)
| Cut.

Arguments Done {A} a s.
Arguments Blocked {A} e s.
Arguments Undefined {A} e s.
Arguments Cut {A}.

(** Runs [p] as thread [tid] from memory [s] while no other thread
    moves; the first component lists the operations performed, in
    order, with their results. *)
Fixpoint run {A : Type} (rnd : nat -> Z) (tid : nat) (p : prog A) (s : shared)
    : list (op * Z) * outcome A :=
  match p with
  | Ret a => ([], Done a s)
  | OutOfFuel => ([], Cut)
  | Op e k =>
      match exec_op rnd tid e s with
      | Ok x s' =>
          let (tr, o) := run rnd tid (k x) s' in ((e, x) :: tr, o)
      | Wait => ([], Blocked e s)
      | Fault => ([], Undefined e s)
      end
  end.

(** *** The worker threads interleaved *)

(** A worker thread is inside the [for] loop of [worker], with the
    rest of the current iteration to run (a finished iteration,
    [Ret i], is the loop test [i < args->transfers]), or has
    returned. *)
Inductive thread : Type :=
| Running (p : prog Z)
| Exited.

(** [for (int i = 0; ...]: the thread starts at the loop test. *)
Definition worker : thread := Running (Ret 0).

Record system : Type := System {
  mem : shared;
  pool : list thread
}.

Definition thread_step (rnd : nat -> Z) (args : worker_args) (tid : nat)
    (th : thread) (s : shared) : option (thread * shared) :=
  match th with
  | Exited => None
  | Running (Ret i) =>
      if i <? transfers args then Some (Running (worker_body args i), s)
      else Some (Exited, s)
  | Running (Op e k) =>
      match exec_op rnd tid e s with
      | Ok x s' => Some (Running (k x), s')
      | Wait => None
      | Fault => None
      end
  | Running OutOfFuel => None
  end.

Definition sys_step (rnd : nat -> Z) (args : worker_args) (tid : nat)
    (st : system) : option system :=
  match pool st !! tid with
  | None => None
  | Some th =>
      match thread_step rnd args tid th (mem st) with
      | None => None
      | Some (th', s') => Some (System s' (<[tid := th']> (pool st)))
      end
  end.

(** A schedule names the thread that makes each next step; it is
    feasible when every thread it names can move. *)
Fixpoint exec_schedule (rnd : nat -> Z) (args : worker_args)
    (sched : list nat) (st : system) : option system :=
  match sched with
  | [] => Some st
  | tid :: sched' =>
      match sys_step rnd args tid st with
      | None => None
      | Some st' => exec_schedule rnd args sched' st'
      end
  end.

Definition exited (th : thread) : bool :=
  match th with
  | Exited => true
  | Running _ => false
  end.

(** Every [pthread_join] of [main] has returned. *)
Definition all_joined (st : system) : bool := forallb exited (pool st).

(** ** [common.h]: the account helpers *)

(** Lines 38-46; [pthread_mutex_init] is taken to succeed. *)
Definition init_accounts (accounts : list account_t) (n : Z)
    (initial_balance : Z) : list account_t :=
  foldl (fun accounts i =>
           <[i := Account (Z.of_nat i) initial_balance None]> accounts)
        accounts (seq 0 (Z.to_nat n)).

Inductive stream : Type := stdout | stderr.

Inductive printf_arg : Type :=
| AInt (z : Z)
| AStr (s : string)
| ARatio (num den : Z).

(** A [printf] or [fprintf] call: the format as the source writes it
    and the arguments.  A [double] argument is kept as the exact ratio
    it approximates. *)
Record output : Type := Print {
  fd : stream;
  fmt : string;
  fargs : list printf_arg
}.

(** Lines 49-54. *)
Definition print_balances (accounts : list account_t) (n : Z) : list output :=
  Print stdout "Account balances:\n" [] ::
  map (fun acc => Print stdout "  Account %d: $%d\n"
                        [AInt (id acc); AInt (balance acc)])
      (take (Z.to_nat n) accounts).

Definition sum_balances (accounts : list account_t) : Z :=
  foldl (fun total acc => total + balance acc) 0 accounts.

(** Lines 57-68. *)
Definition verify_total (accounts : list account_t) (n : Z)
    (expected_total : Z) : list output * Z :=
  let total := sum_balances (take (Z.to_nat n) accounts) in
  let out := [Print stdout "Total balance: $%d (expected: $%d)\n"
                    [AInt total; AInt expected_total]] in
  if negb (total =? expected_total) then
    (out ++ [Print stderr
               "ERROR: Balance mismatch! Money was lost or created.\n" []], 0)
  else (out, 1).

(** ** [main], lines 250-342 *)

(** One result of [getopt(argc, argv, "t:n:m:")]: the option
    character it returns ([?] for a flag that is not in the option
    string) and the value [atoi] reads from [optarg]. *)
Record getopt_result : Type := GetOpt {
  opt : ascii;
  optarg : Z
}.

(** Lines 257-273.  The left result is the output of the [default]
    case, which ends in [exit(1)]. *)
Fixpoint parse_options (argv0 : string) (opts : list getopt_result)
    (num_threads transfers_per_thread mode : Z)
    : list output + (Z * Z * Z) :=
  match opts with
  | [] => inr (num_threads, transfers_per_thread, mode)
  | o :: opts' =>
      if Ascii.eqb (opt o) "t" then
        parse_options argv0 opts' (optarg o) transfers_per_thread mode
      else if Ascii.eqb (opt o) "n" then
        parse_options argv0 opts' num_threads (optarg o) mode
      else if Ascii.eqb (opt o) "m" then
        parse_options argv0 opts' num_threads transfers_per_thread (optarg o)
      else
        inl [Print stderr "Usage: %s [-t threads] [-n transfers] [-m mode]\n"
                   [AStr argv0];
             Print stderr
                   "  mode: 0=naive, 1=timeout, 2=ordered, 3=trylock\n" []]
  end.

(** Lines 277-284: the output of the mode line, and whether [main]
    goes on. *)
Definition print_mode (mode : Z) : output * bool :=
  if mode =? 0 then (Print stdout "NAIVE (will deadlock)\n" [], true)
  else if mode =? 1 then (Print stdout "TIMEOUT (detect deadlock)\n" [], true)
  else if mode =? 2 then (Print stdout "ORDERED (prevent deadlock)\n" [], true)
  else if mode =? 3 then (Print stdout "TRYLOCK (prevent deadlock)\n" [], true)
  else (Print stderr "Invalid mode\n" [], false).

(** The array [accounts] of line 288 before [init_accounts] fills it;
    the contents are indeterminate in C and [init_accounts] overwrites
    every field. *)
Definition uninitialized_accounts : list account_t :=
  replicate (Z.to_nat NUM_ACCOUNTS) (Account 0 0 None).

(** The memory and the threads once the loop of lines 305-309 has
    created the workers ([pthread_create] is taken to succeed). *)
Definition spawn (num_threads : Z) (accounts : list account_t) : system :=
  System (Shared accounts (Stats 0 0 0 0) O)
         (replicate (Z.to_nat num_threads) worker).

(** Lines 322-341, on the memory the joined workers leave. *)
Definition report (s : shared) (t0 t1 : Z) : list output * Z :=
  let elapsed_ns := wrap64 (t1 - t0) in
  let out :=
    [Print stdout "\n=== Results ===\n" [];
     Print stdout "Elapsed time: %.3f seconds\n"
           [ARatio elapsed_ns 1000000000];
     Print stdout "Successful transfers: %lu\n"
           [AInt (successful_transfers (stats s))];
     Print stdout "Failed transfers: %lu\n"
           [AInt (failed_transfers (stats s))];
     Print stdout "Deadlock detections: %lu\n"
           [AInt (deadlock_detections (stats s))];
     Print stdout "Retries: %lu\n" [AInt (retries (stats s))];
     Print stdout "Throughput: %.2f transfers/sec\n\n"
           [ARatio (successful_transfers (stats s) * 1000000000) elapsed_ns]]
    ++ print_balances (accounts s) NUM_ACCOUNTS
    ++ [Print stdout "\n" []] in
  let expected_total := NUM_ACCOUNTS * INITIAL_BALANCE in
  let (vout, ok) := verify_total (accounts s) NUM_ACCOUNTS expected_total in
  if ok =? 0 then
    (out ++ vout ++ [Print stdout "FAIL: Balance check failed!\n" []], 1)
  else
    (out ++ vout ++
     [Print stdout "SUCCESS: All transfers completed and balances verified.\n"
            []], 0).

(** What a run of [main] shows: its output, its exit status, and the
    account array when one was created.  [NotJoined]: the schedule
    ends, or cannot go on, before every worker has returned. *)
Inductive main_result : Type :=
| Exit (out : list output) (status : Z) (created : option (list account_t))
| NotJoined.

(** [main] for the options [getopt] yields, the generator sequence
    [rnd], the interleaving [sched] of the workers and the two clock
    readings [t0], [t1] of [now_ns]. *)
Definition main (argv0 : string) (opts : list getopt_result)
    (rnd : nat -> Z) (sched : list nat) (t0 t1 : Z) : main_result :=
  match parse_options argv0 opts NUM_THREADS TRANSFERS_PER_THREAD 0 with
  | inl usage => Exit usage 1 None
  | inr (num_threads, transfers_per_thread, mode) =>
      let banner := [Print stdout "=== Deadlock Lab ===\n" [];
                     Print stdout "Mode: " []] in
      let (mode_line, valid) := print_mode mode in
      if negb valid then Exit (banner ++ [mode_line]) 1 None
      else
        let banner :=
          banner ++ [mode_line;
                     Print stdout "Threads: %d, Transfers per thread: %d\n\n"
                           [AInt num_threads; AInt transfers_per_thread]] in
        let array :=
          init_accounts uninitialized_accounts NUM_ACCOUNTS INITIAL_BALANCE in
        let args := WorkerArgs NUM_ACCOUNTS mode transfers_per_thread in
        match exec_schedule rnd args sched (spawn num_threads array) with
        | None => NotJoined
        | Some st =>
            if all_joined st then
              let (out, status) := report (mem st) t0 t1 in
              Exit (banner ++ out) status (Some (accounts (mem st)))
            else NotJoined
        end
  end.

(** ** Observations on memories and traces *)

Definition balance_at (s : shared) (a : nat) : option Z :=
  match accounts s !! a with
  | Some acc => Some (balance acc)
  | None => None
  end.

Definition lock_at (s : shared) (a : nat) : option (option nat) :=
  match accounts s !! a with
  | Some acc => Some (lock acc)
  | None => None
  end.

(** Thread [tid] holds the mutex of account [a]. *)
Definition holds (tid : nat) (s : shared) (a : nat) : bool :=
  match lock_at s a with
  | Some (Some owner) => Nat.eqb owner tid
  | _ => false
  end.

(** The accounts whose mutex thread [tid] holds. *)
Definition held_by (tid : nat) (s : shared) : list nat :=
  filter (fun a => holds tid s a = true) (seq 0 (length (accounts s))).

Definition is_lock (e : op) : bool :=
  match e with
  | pthread_mutex_lock _ => true
  | _ => false
  end.

Definition is_usleep (e : op) : bool :=
  match e with
  | usleep _ => true
  | _ => false
  end.

Definition is_add (c : counter) (e : op) : bool :=
  match e, c with
  | sync_fetch_and_add c_successful_transfers, c_successful_transfers => true
  | sync_fetch_and_add c_failed_transfers, c_failed_transfers => true
  | sync_fetch_and_add c_deadlock_detections, c_deadlock_detections => true
  | sync_fetch_and_add c_retries, c_retries => true
  | _, _ => false
  end.

(** How many operations of a trace satisfy [f]. *)
Definition count (f : op -> bool) (tr : list (op * Z)) : nat :=
  length (filter (fun ev => f (fst ev) = true) tr).

(** Scenario A of the specification: two accounts at 1000, nothing
    locked, counters at zero. *)
Definition scenario_A : shared :=
  Shared [Account 0 1000 None; Account 1 1000 None] (Stats 0 0 0 0) O.

(** The counters after a transfer given up by the retry loop, [n]
    increments of [retries] after it was entered. *)
Definition abandoned (st : stats_t) (n : Z) : stats_t :=
  Stats (successful_transfers st) (wrap64 (failed_transfers st + 1))
        (deadlock_detections st) (wrap64 (retries st + n)).

(** The run [r] after the operations [tr]. *)
Definition prefix_trace {A : Type} (tr : list (op * Z))
    (r : list (op * Z) * outcome A) : list (op * Z) * outcome A :=
  (tr ++ fst r, snd r).

(** The option characters the [switch] of [main] has a case for. *)
Definition recognized (c : ascii) : bool :=
  Ascii.eqb c "t" || Ascii.eqb c "n" || Ascii.eqb c "m".

(** The two lines of the [default] case of the [switch]. *)
Definition usage_message (argv0 : string) : list output :=
  [Print stderr "Usage: %s [-t threads] [-n transfers] [-m mode]\n"
         [AStr argv0];
   Print stderr "  mode: 0=naive, 1=timeout, 2=ordered, 3=trylock\n" []].

(** A line of the usage message on the error stream. *)
Definition is_usage (o : output) : bool :=
  match fd o with
  | stderr => String.prefix "Usage:" (fmt o)
  | stdout => false
  end.

(** ** The locking discipline *)

(** What a thread has on each account: [None] when it does not hold
    the account's mutex, [Some None] when it holds it, [Some (Some v)]
    when it holds it and has read or written the balance [v] since
    taking it. *)
Abbreviation ownership := (nat -> option (option Z)) (only parsing).

Definition own_upd (own : ownership) (a : nat) (o : option (option Z))
    : ownership :=
  fun b => if Nat.eqb b a then o else own b.

Definition no_lock (own : ownership) : Prop := forall a, own a = None.

(** [disc n own pend p Q]: the program [p], run by a thread with
    ownership [own] over an array of [n] accounts, only locks accounts
    of the array that it does not hold, only unlocks, reads and writes
    accounts that it holds, only writes a balance it has read under
    the lock, and never runs out of fuel.  [pend] is the money the
    thread has taken out of the balances and not yet put back: every
    store adds the old balance minus the new one.  It is zero
    whenever the thread holds no lock.  [Q] is what holds of the
    result, the ownership and the pending money when [p] returns. *)
Fixpoint disc {A : Type} (n : nat) (own : ownership) (pend : Z) (p : prog A)
    (Q : A -> ownership -> Z -> Prop) : Prop :=
  match p with
  | Ret a => Q a own pend
  | OutOfFuel => False
  | Op e k =>
      (no_lock own -> pend = 0) /\
      match e with
      | pthread_mutex_lock a =>
          (a < n)%nat /\ own a = None /\
          disc n (own_upd own a (Some None)) pend (k 0) Q
      | pthread_mutex_unlock a =>
          own a <> None /\ disc n (own_upd own a None) pend (k 0) Q
      | load_balance a =>
          own a <> None /\
          forall v, disc n (own_upd own a (Some (Some v))) pend (k v) Q
      | store_balance a w =>
          exists v, own a = Some (Some v) /\
            disc n (own_upd own a (Some (Some w))) (pend + v - w) (k w) Q
      | sync_fetch_and_add _ => forall x, disc n own pend (k x) Q
      | rand => forall x, 0 <= x <= RAND_MAX -> disc n own pend (k x) Q
      | usleep _ => disc n own pend (k 0) Q
      end
  end.

(** The thread is back where it holds nothing and owes nothing. *)
Definition settled {A : Type} (_ : A) (own : ownership) (pend : Z) : Prop :=
  no_lock own /\ pend = 0.

Definition thread_ok (n : nat) (g : ownership * Z) (th : thread) : Prop :=
  match th with
  | Exited => no_lock (fst g) /\ snd g = 0
  | Running p => disc n (fst g) (snd g) p settled
  end.

Definition sumZ (l : list Z) : Z := foldr Z.add 0 l.

(** The invariant of the interleaved execution, for the ownership and
    pending money [G] of the threads: every thread follows the
    discipline from where it is; the owner recorded in a mutex is the
    thread whose ownership has the account; a balance a thread knows
    is the balance in memory; the accounts a thread holds are in the
    array; and the balances plus the pending money make [total]. *)
Definition invariant_with (n : nat) (total : Z) (G : list (ownership * Z))
    (st : system) : Prop :=
  length G = length (pool st) /\
  length (accounts (mem st)) = n /\
  (forall t th g, pool st !! t = Some th -> G !! t = Some g ->
                  thread_ok n g th) /\
  (forall a acc t g, accounts (mem st) !! a = Some acc -> G !! t = Some g ->
                     (lock acc = Some t <-> fst g a <> None)) /\
  (forall t g a v acc, G !! t = Some g -> fst g a = Some (Some v) ->
                       accounts (mem st) !! a = Some acc ->
                       balance acc = v) /\
  (forall t g a, G !! t = Some g -> fst g a <> None -> (a < n)%nat) /\
  sum_balances (accounts (mem st)) + sumZ (snd <$> G) = total.

Definition invariant (n : nat) (total : Z) (st : system) : Prop :=
  exists G, invariant_with n total G st.

(** No thread holds a mutex. *)
Definition quiescent (st : system) : Prop :=
  forall a acc, accounts (mem st) !! a = Some acc -> lock acc = None.

(** The accounts [main] hands to the workers. *)
Definition fresh_accounts : list account_t :=
  init_accounts uninitialized_accounts NUM_ACCOUNTS INITIAL_BALANCE.

(** The threads take turns, one step each. *)
Definition alternating (steps : nat) : list nat :=
  concat (replicate steps [0%nat; 1%nat]).


(** ** Further observations *)

(** The account whose balance an operation reads or writes. *)
Definition accesses (e : op) : option nat :=
  match e with
  | load_balance a => Some a
  | store_balance a _ => Some a
  | _ => None
  end.

(** The worker arguments [main] builds (lines 296-301). *)
Definition main_args (mode transfers_per_thread : Z) : worker_args :=
  WorkerArgs NUM_ACCOUNTS mode transfers_per_thread.

(** [st] is a state of a run of [main]'s workers: some interleaving
    leads to it from the state in which the workers were created. *)
Definition reachable (rnd : nat -> Z) (mode num_threads transfers_per_thread : Z)
    (st : system) : Prop :=
  exists sched,
    exec_schedule rnd (main_args mode transfers_per_thread) sched
                  (spawn num_threads fresh_accounts) = Some st.

(** Every mutex that is held is held by one of the workers. *)
Definition owners_in_pool (st : system) : Prop :=
  forall a acc t, accounts (mem st) !! a = Some acc -> lock acc = Some t ->
                  (t < length (pool st))%nat.

(** The circular wait of the comment above [transfer_naive]: thread
    [t0] holds account [a] and is at its blocking lock of [b], while
    thread [t1] holds [b] and is at its blocking lock of [a]. *)
Definition circular_wait (st : system) (t0 t1 a b : nat) : Prop :=
  (exists k0, pool st !! t0 = Some (Running (Op (pthread_mutex_lock b) k0))) /\
  (exists k1, pool st !! t1 = Some (Running (Op (pthread_mutex_lock a) k1))) /\
  lock_at (mem st) a = Some (Some t0) /\
  lock_at (mem st) b = Some (Some t1).

(** A generator sequence that makes the first worker draw accounts 0
    and 1 and the second one accounts 1 and 0. *)
Definition opposite_draws (n : nat) : Z :=
  match n with
  | 1%nat => 1
  | 3%nat => 1
  | _ => 0
  end.

(** ** Counting the transfers *)

#[global] Instance counter_eq_dec : EqDecision counter.
Proof. solve_decision. Defined.

(** One more increment of counter [c] in a count kept without
    wrap-around. *)
Definition bump (c : counter) (v : stats_t) : stats_t :=
  set_counter c (get_counter c v + 1) v.

(** The increments a worker has made when it has finished [i]
    transfers: in modes 0 and 2 every transfer is one increment of
    [successful_transfers]; in modes 1 and 3 it is [max_retries + 1]
    increments of [retries] and one of [failed_transfers]. *)
Definition counted (mode : Z) (i : Z) : stats_t :=
  if (mode =? 0) || (mode =? 2) then Stats i 0 0 0
  else Stats 0 i 0 ((max_retries + 1) * i).

(** The modes in which the workers do not touch the accounts. *)
Definition quiet_mode (mode : Z) : bool := negb (mode =? 0).

(** [tally quiet v p Q]: [p] never runs out of fuel, performs no
    operation on an account when [quiet] is set, and when it returns
    with the increments it makes added to the count [v], [Q] holds of
    the result and the count. *)
Fixpoint tally {A : Type} (quiet : bool) (v : stats_t) (p : prog A)
    (Q : A -> stats_t -> Prop) : Prop :=
  match p with
  | Ret a => Q a v
  | OutOfFuel => False
  | Op e k =>
      match e with
      | sync_fetch_and_add c => forall x, tally quiet (bump c v) (k x) Q
      | rand => forall x, 0 <= x <= RAND_MAX -> tally quiet v (k x) Q
      | usleep _ => forall x, tally quiet v (k x) Q
      | _ => quiet = false /\ forall x, tally quiet v (k x) Q
      end
  end.

(** The number of transfers a worker makes. *)
Definition transfers_made (args : worker_args) : Z := Z.max 0 (transfers args).

(** At the loop test with [i], the worker has counted [i] transfers. *)
Definition at_loop_test (args : worker_args) (i : Z) (v : stats_t) : Prop :=
  0 <= i <= transfers_made args /\ v = counted (mode args) i.

Definition thread_counted (args : worker_args) (v : stats_t) (th : thread)
    : Prop :=
  match th with
  | Exited => v = counted (mode args) (transfers_made args)
  | Running p => tally (quiet_mode (mode args)) v p (at_loop_test args)
  end.

(** The invariant behind the final report: [V] gives the increments
    each worker has made; every global counter is the wrapped sum of
    the workers' increments; and in a quiet mode the accounts are the
    initial ones. *)
Definition counters_invariant (args : worker_args) (accts0 : list account_t)
    (st : system) : Prop :=
  exists V : list stats_t,
    length V = length (pool st) /\
    (forall t th v, pool st !! t = Some th -> V !! t = Some v ->
                    thread_counted args v th) /\
    (forall c, get_counter c (stats (mem st))
               = wrap64 (sumZ (get_counter c <$> V))) /\
    (quiet_mode (mode args) = true -> accounts (mem st) = accts0).

(** ** The accounts as values *)

(** The array with [d] added to the balance of account [a]; an
    index outside the array changes nothing. *)
Definition credit (a : nat) (d : Z) (accts : list account_t) : list account_t :=
  match accts !! a with
  | Some acc => <[a := set_balance acc (balance acc + d)]> accts
  | None => accts
  end.

(** The account [init_accounts] writes at index [i]. *)
Definition fresh_account (initial_balance : Z) (i : nat) : account_t :=
  Account (Z.of_nat i) initial_balance None.

(** The argument of the last option with character [c], or [default]
    when there is none. *)
Definition last_optarg (c : ascii) (opts : list getopt_result) (default : Z)
    : Z :=
  foldl (fun z o => if Ascii.eqb (opt o) c then optarg o else z) default opts.

(** ** The range of [int] *)

(** Balances and amounts are C [int]s.  The embedding computes on
    [Z]; it agrees with the machine as long as every value stays in
    this range. *)
Definition INT_MIN : Z := - 2 ^ 31.
Definition INT_MAX : Z := 2 ^ 31 - 1.

Definition in_int (z : Z) : Prop := INT_MIN <= z <= INT_MAX.

(** ** [transfer_timeout] over the timed lock it calls *)

(** Lines 104-133 again, with the function called at lines 106 and
    115 as a parameter.  [transfer_timeout] is its instance at
    [mutex_trylock_timed]; the second timeout branch, lines 117-121,
    can only be entered with another timed lock. *)
Definition transfer_timeout_with (lock_timed : nat -> Z -> prog Z)
    (from to : nat) (amount : Z) : prog Z :=
  ret1 <- lock_timed from 100 ;;
  if ret1 =? ETIMEDOUT then Ret (-1)
  else
    call (usleep 1) ;;
    ret2 <- lock_timed to 100 ;;
    if ret2 =? ETIMEDOUT then Ret (-1)
    else
      perform_transfer from to amount ;;
      call (pthread_mutex_unlock to) ;;
      call (pthread_mutex_unlock from) ;;
      call (sync_fetch_and_add c_successful_transfers) ;;
      Ret 0.



(** * Properties *)

(** ** Running programs *)

Lemma run_bind {A B : Type} rnd tid (p : prog A) (f : A -> prog B) s :
  run rnd tid (bind p f) s =
  match run rnd tid p s with
  | (tr, Done a s') => prefix_trace tr (run rnd tid (f a) s')
  | (tr, Blocked e s') => (tr, Blocked e s')
  | (tr, Undefined e s') => (tr, Undefined e s')
  | (tr, Cut) => (tr, Cut)
  end.
Proof.
  revert s. induction p as [a | e k IH |]; intros s; simpl.
  - unfold prefix_trace. simpl. by destruct (run rnd tid (f a) s).
  - destruct (exec_op rnd tid e s) as [x s' | |]; try done.
    rewrite IH. destruct (run rnd tid (k x) s') as [tr [a s1 | e1 s1 | e1 s1 |]];
      done.
  - done.
Qed.

Lemma lookup_update_account s a acc b :
  accounts (update_account s a acc) !! b =
  if decide (a = b) then
    match accounts s !! b with Some _ => Some acc | None => None end
  else accounts s !! b.
Proof.
  unfold update_account. simpl. case_decide as Hab.
  - subst b. destruct (accounts s !! a) eqn:Ha.
    + apply list_lookup_insert_eq. by eapply lookup_lt_Some.
    + rewrite list_insert_ge; [done | by apply lookup_ge_None].
  - by apply list_lookup_insert_ne.
Qed.

Lemma run_Op_Done {A : Type} rnd tid e (k : Z -> prog A) s tr a s' :
  run rnd tid (Op e k) s = (tr, Done a s') ->
  exists x s1 tr1,
    exec_op rnd tid e s = Ok x s1 /\
    run rnd tid (k x) s1 = (tr1, Done a s') /\ tr = (e, x) :: tr1.
Proof.
  simpl. destruct (exec_op rnd tid e s) as [x s1 | |]; try done.
  destruct (run rnd tid (k x) s1) as [tr1 o] eqn:Hk.
  intros [= <- ->]. by exists x, s1, tr1.
Qed.

Lemma exec_lock_Ok rnd tid a s x s1 :
  exec_op rnd tid (pthread_mutex_lock a) s = Ok x s1 ->
  exists acc, accounts s !! a = Some acc /\ lock acc = None /\ x = 0 /\
              s1 = update_account s a (set_lock acc (Some tid)).
Proof.
  simpl. destruct (accounts s !! a) as [acc |]; try done.
  destruct (lock acc) eqn:Hl; try done. intros [= <- <-]. by exists acc.
Qed.

Lemma exec_unlock_Ok rnd tid a s x s1 :
  exec_op rnd tid (pthread_mutex_unlock a) s = Ok x s1 ->
  exists acc, accounts s !! a = Some acc /\ lock acc = Some tid /\ x = 0 /\
              s1 = update_account s a (set_lock acc None).
Proof.
  simpl. destruct (accounts s !! a) as [acc |]; try done.
  destruct (lock acc) as [owner |] eqn:Hl; try done.
  destruct (Nat.eqb_spec owner tid) as [-> |]; try done.
  intros [= <- <-]. by exists acc.
Qed.

Lemma exec_load_Ok rnd tid a s x s1 :
  exec_op rnd tid (load_balance a) s = Ok x s1 ->
  balance_at s a = Some x /\ s1 = s.
Proof.
  unfold balance_at. simpl. destruct (accounts s !! a) as [acc |]; try done.
  by intros [= <- <-].
Qed.

Lemma exec_store_Ok rnd tid a v s x s1 :
  exec_op rnd tid (store_balance a v) s = Ok x s1 ->
  exists acc, accounts s !! a = Some acc /\ x = v /\
              s1 = update_account s a (set_balance acc v).
Proof.
  simpl. destruct (accounts s !! a) as [acc |]; try done.
  intros [= <- <-]. by exists acc.
Qed.

(** One operation of a run that returns: [E] says what it did. *)
Ltac run_step H E :=
  let x := fresh "x" in
  let s := fresh "s" in
  let tr := fresh "tr" in
  apply run_Op_Done in H as (x & s & tr & E & H & ->).

(** ** Part 1: the naive transfer *)

(** C8. [transfer_naive] has no failure result (it returns [void], a
    [unit] here), and every invocation that returns has performed, in
    this order: lock of [from], the pause, lock of [to], the
    subtraction on the balance of [from], the addition on the balance
    of [to], unlock of [to], unlock of [from], one increment of
    [successful_transfers]; it leaves both mutexes free. *)
Theorem transfer_naive_protocol rnd tid from to amount s tr u s' :
  run rnd tid (transfer_naive from to amount) s = (tr, Done u s') ->
  exists bf bt : Z,
    balance_at s from = Some bf /\ balance_at s to = Some bt /\
    tr = [(pthread_mutex_lock from, 0);
          (usleep 1, 0);
          (pthread_mutex_lock to, 0);
          (load_balance from, bf);
          (store_balance from (bf - amount), bf - amount);
          (load_balance to, bt);
          (store_balance to (bt + amount), bt + amount);
          (pthread_mutex_unlock to, 0);
          (pthread_mutex_unlock from, 0);
          (sync_fetch_and_add c_successful_transfers,
           successful_transfers (stats s))] /\
    balance_at s' from = Some (bf - amount) /\
    balance_at s' to = Some (bt + amount) /\
    lock_at s' from = Some None /\ lock_at s' to = Some None /\
    successful_transfers (stats s') =
      wrap64 (successful_transfers (stats s) + 1).
Proof.
  unfold transfer_naive, perform_transfer, call. cbn [bind].
  intros H.
  run_step H E. apply exec_lock_Ok in E as (a1 & L1 & F1 & -> & ->).
  run_step H E. injection E as <- <-.
  run_step H E. apply exec_lock_Ok in E as (a3 & L3 & F3 & -> & ->).
  run_step H E. apply exec_load_Ok in E as (B4 & ->).
  run_step H E. apply exec_store_Ok in E as (a5 & L5 & -> & ->).
  run_step H E. apply exec_load_Ok in E as (B6 & ->).
  run_step H E. apply exec_store_Ok in E as (a7 & L7 & -> & ->).
  run_step H E. apply exec_unlock_Ok in E as (a8 & L8 & F8 & -> & ->).
  run_step H E. apply exec_unlock_Ok in E as (a9 & L9 & F9 & -> & ->).
  run_step H E. injection E as <- <-.
  cbn [run] in H. injection H as <- _ <-.
  assert (from <> to) as Hne.
  { intros ->. rewrite lookup_update_account, decide_True, L1 in L3 by done.
    injection L3 as <-. simpl in F3. done. }
  assert (to <> from) as Hne' by done.
  unfold lock_at, balance_at in *.
  repeat (rewrite ?lookup_update_account,
                  ?(decide_True (P := from = from)),
                  ?(decide_True (P := to = to)),
                  ?(decide_False (P := from = to)),
                  ?(decide_False (P := to = from)), ?L1, ?L3 in * by done;
          simplify_eq).
  exists (balance a1), (balance a3). simpl.
  repeat first
    [ rewrite list_lookup_insert_eq
        by (rewrite ?length_insert; eapply lookup_lt_Some; eassumption)
    | rewrite list_lookup_insert_ne by done ].
  done.
Qed.

(** The naive transfer returns whenever both mutexes are free. *)
Lemma transfer_naive_returns rnd tid from to amount s :
  from <> to -> lock_at s from = Some None -> lock_at s to = Some None ->
  exists tr s', run rnd tid (transfer_naive from to amount) s = (tr, Done tt s').
Proof.
  unfold lock_at. intros Hne Hf Ht.
  destruct (accounts s !! from) as [af |] eqn:Lf; [|done].
  destruct (accounts s !! to) as [at' |] eqn:Lt; [|done].
  injection Hf as Hf. injection Ht as Ht.
  assert (to <> from) as Hne' by done.
  unfold transfer_naive, perform_transfer, call. cbn [bind run exec_op].
  repeat first
    [ rewrite lookup_update_account
    | rewrite decide_True by done
    | rewrite decide_False by done
    | rewrite Lf | rewrite Lt | rewrite Hf | rewrite Ht
    | rewrite Nat.eqb_refl
    | progress cbn [set_lock set_balance lock balance id run exec_op] ].
  by eexists _, _.
Qed.

Lemma transfer_naive_protocol_witness :
  exists s',
    snd (run (fun _ => 0) 0%nat (transfer_naive 0 1 50) scenario_A)
      = Done tt s' /\
    balance_at s' 0%nat = Some 950 /\ balance_at s' 1%nat = Some 1050.
Proof.
  eexists. split; [reflexivity|].
  destruct (transfer_naive_protocol (fun _ => 0) 0%nat 0%nat 1%nat 50
              scenario_A _ tt _ eq_refl)
    as (bf & bt & Hf & Ht & _ & Hf' & Ht' & _).
  injection Hf as <-. injection Ht as <-. split; assumption.
Defined.

(** ** Part 2: the timed lock and the timeout transfer *)

(** C2 (the code does not do this).  [mutex_trylock_timed] returns
    [ETIMEDOUT] at once for every mutex, free or not: it makes no
    attempt on the mutex and does not sleep. *)
Theorem mutex_trylock_timed_placeholder rnd tid lk timeout_ms s :
  run rnd tid (mutex_trylock_timed lk timeout_ms) s = ([], Done ETIMEDOUT s).
Proof. reflexivity. Qed.

Lemma transfer_timeout_fails from to amount :
  transfer_timeout from to amount = Ret (-1).
Proof. reflexivity. Qed.

Lemma transfer_trylock_fails from to amount :
  transfer_trylock from to amount = Ret (-1).
Proof. reflexivity. Qed.

(** ** Part 3A: the ordered transfer *)

Lemma transfer_ordered_run rnd tid from to amount s :
  run rnd tid (transfer_ordered from to amount) s =
  ([(sync_fetch_and_add c_successful_transfers,
     successful_transfers (stats s))],
   Done tt (Shared (accounts s)
                   (set_counter c_successful_transfers
                      (wrap64 (successful_transfers (stats s) + 1)) (stats s))
                   (rand_calls s))).
Proof. reflexivity. Qed.

(** C5 (the code does not do this).  In scenario A the ordered
    transfer of 50 from account 0 to account 1 leaves both balances
    at 1000; it counts one successful transfer, and the total check
    over the two accounts passes. *)
Theorem transfer_ordered_scenario_A :
  exists s',
    snd (run (fun _ => 0) 0%nat (transfer_ordered 0 1 50) scenario_A)
      = Done tt s' /\
    balance_at s' 0%nat = Some 1000 /\ balance_at s' 1%nat = Some 1000 /\
    successful_transfers (stats s') = 1 /\
    snd (verify_total (accounts s') 2 2000) = 1.
Proof. eexists. repeat split. Qed.

(** ** The retry loop of the worker *)

Lemma count_app f tr1 tr2 :
  count f (tr1 ++ tr2) = (count f tr1 + count f tr2)%nat.
Proof. unfold count. by rewrite filter_app, length_app. Qed.

Lemma count_cons f ev tr :
  count f (ev :: tr) = ((if f (fst ev) then 1 else 0) + count f tr)%nat.
Proof.
  unfold count. rewrite filter_cons.
  destruct (f (fst ev)); case_decide; done.
Qed.

Lemma wrap64_add_l a b : wrap64 (wrap64 a + b) = wrap64 (a + b).
Proof. unfold wrap64. by rewrite Z.add_mod_idemp_l. Qed.

Section RetryLoop.
Variables (rnd : nat -> Z) (tid : nat).

(** The sleep between two attempts: [usleep(10 * 1000)] in mode 1,
    [usleep(rand() % 1000000)] in mode 3.  Both return, sleep once
    and touch neither the accounts nor the counters. *)
Variable backoff : prog Z.
Hypothesis backoff_sleeps : forall s,
  exists tr x s',
    run rnd tid backoff s = (tr, Done x s') /\
    accounts s' = accounts s /\ stats s' = stats s /\
    count is_usleep tr = 1%nat /\ (forall c, count (is_add c) tr = 0%nat).

(** An attempt that succeeds ends the loop. *)
Lemma retry_loop_success fuel attempt rc s tr s' :
  run rnd tid attempt s = (tr, Done 0 s') ->
  run rnd tid (retry_loop (S fuel) attempt backoff rc) s = (tr, Done rc s').
Proof.
  intros H. cbn [retry_loop]. rewrite run_bind, H. simpl.
  unfold prefix_trace. simpl. by rewrite app_nil_r.
Qed.

(** When every attempt fails the loop counts [retry_count] up to
    [max_retries + 1], sleeping before each new attempt, and then
    gives the transfer up. *)
Lemma retry_loop_gives_up fuel : forall rc s,
  0 <= rc <= max_retries ->
  (Z.to_nat (max_retries - rc) < fuel)%nat ->
  exists tr s',
    run rnd tid (retry_loop fuel (Ret (-1)) backoff rc) s
      = (tr, Done (max_retries + 1) s') /\
    accounts s' = accounts s /\
    stats s' = abandoned (stats s) (max_retries + 1 - rc) /\
    count is_usleep tr = Z.to_nat (max_retries - rc) /\
    count (is_add c_retries) tr = Z.to_nat (max_retries + 1 - rc) /\
    count (is_add c_failed_transfers) tr = 1%nat /\
    count (is_add c_successful_transfers) tr = 0%nat /\
    count (is_add c_deadlock_detections) tr = 0%nat.
Proof.
  induction fuel as [| fuel IH]; intros rc s Hrc Hfuel; [lia|].
  cbn [retry_loop bind]. change (-1 =? 0) with false. cbv iota.
  unfold call at 1. cbn [bind run exec_op].
  destruct (Z.gtb_spec (rc + 1) max_retries) as [Hlast | Hmore].
  - assert (rc = max_retries) as -> by lia.
    cbn [call bind run exec_op]. eexists _, _. split; [reflexivity|].
    replace (max_retries + 1 - max_retries) with 1 by lia.
    replace (max_retries - max_retries) with 0 by lia.
    repeat split.
  - set (s1 := Shared _ _ _).
    rewrite run_bind.
    destruct (backoff_sleeps s1) as (trb & x & s2 & -> & Ha & Hs & Hu & Hc).
    destruct (IH (rc + 1) s2) as (tr & s' & -> & Ha' & Hs' & Hu' & Hr & Hf & Hok & Hd);
      [lia | lia |].
    unfold prefix_trace. simpl. eexists _, _. split; [reflexivity|].
    rewrite !count_cons, !count_app, !Hc, Hu, Hu', Hr, Hf, Hok, Hd. simpl.
    rewrite Ha', Ha, Hs', Hs. subst s1. simpl.
    repeat split; try lia.
    unfold abandoned. simpl. f_equal. rewrite wrap64_add_l. f_equal. lia.
Qed.

(** Fewer iterations do not end the loop. *)
Lemma retry_loop_cut fuel : forall rc s,
  0 <= rc ->
  (fuel <= Z.to_nat (max_retries - rc))%nat ->
  snd (run rnd tid (retry_loop fuel (Ret (-1)) backoff rc) s) = Cut.
Proof.
  induction fuel as [| fuel IH]; intros rc s Hrc Hfuel; [done|].
  cbn [retry_loop bind]. change (-1 =? 0) with false. cbv iota.
  unfold call at 1. cbn [bind run exec_op].
  destruct (Z.gtb_spec (rc + 1) max_retries) as [Hlast | Hmore]; [lia|].
  set (s1 := Shared _ _ _).
  rewrite run_bind.
  destruct (backoff_sleeps s1) as (trb & x & s2 & -> & _).
  specialize (IH (rc + 1) s2).
  destruct (run rnd tid (retry_loop fuel (Ret (-1)) backoff (rc + 1)) s2)
    as [tr o].
  simpl in *. apply IH; lia.
Qed.
End RetryLoop.

Lemma backoff_timeout_sleeps rnd tid s :
  exists tr x s',
    run rnd tid (call (usleep (10 * 1000))) s = (tr, Done x s') /\
    accounts s' = accounts s /\ stats s' = stats s /\
    count is_usleep tr = 1%nat /\ (forall c, count (is_add c) tr = 0%nat).
Proof. eexists _, _, _. split; [reflexivity|]. repeat split. Qed.

Lemma backoff_trylock_sleeps rnd tid s :
  exists tr x s',
    run rnd tid (r <- call rand ;; call (usleep (Z.rem r 1000000))) s
      = (tr, Done x s') /\
    accounts s' = accounts s /\ stats s' = stats s /\
    count is_usleep tr = 1%nat /\ (forall c, count (is_add c) tr = 0%nat).
Proof. eexists _, _, _. split; [reflexivity|]. repeat split. Qed.

Lemma retry_fuel_enough : (Z.to_nat (max_retries - 0) < retry_fuel)%nat.
Proof. unfold retry_fuel. lia. Qed.

(** In modes 1 and 3 the worker gives every transfer up. *)
Lemma worker_dispatch_gives_up rnd tid args from to amount s :
  mode args = 1 \/ mode args = 3 ->
  exists tr s',
    run rnd tid (worker_dispatch args from to amount) s = (tr, Done tt s') /\
    accounts s' = accounts s /\
    stats s' = abandoned (stats s) (max_retries + 1) /\
    count is_usleep tr = Z.to_nat max_retries /\
    count (is_add c_retries) tr = Z.to_nat (max_retries + 1) /\
    count (is_add c_failed_transfers) tr = 1%nat /\
    count (is_add c_successful_transfers) tr = 0%nat /\
    count (is_add c_deadlock_detections) tr = 0%nat.
Proof.
  intros [Hm | Hm]; unfold worker_dispatch; rewrite Hm; cbv beta iota zeta;
    change (1 =? 0) with false; change (3 =? 0) with false;
    change (3 =? 1) with false; change (3 =? 2) with false;
    change (1 =? 1) with true; change (3 =? 3) with true; cbv iota;
    rewrite run_bind.
  - destruct (retry_loop_gives_up rnd tid _ (backoff_timeout_sleeps rnd tid)
                retry_fuel 0 s) as (tr & s' & H & Hrest);
      [unfold max_retries; lia | apply retry_fuel_enough |].
    rewrite transfer_timeout_fails, H. unfold prefix_trace. simpl.
    rewrite app_nil_r, !Z.sub_0_r in *. exists tr, s'.
    split; [reflexivity | exact Hrest].
  - destruct (retry_loop_gives_up rnd tid _ (backoff_trylock_sleeps rnd tid)
                retry_fuel 0 s) as (tr & s' & H & Hrest);
      [unfold max_retries; lia | apply retry_fuel_enough |].
    rewrite transfer_trylock_fails, H. unfold prefix_trace. simpl.
    rewrite app_nil_r, !Z.sub_0_r in *. exists tr, s'.
    split; [reflexivity | exact Hrest].
Qed.

(** C7 (the code does not do this).  A call of [transfer_timeout]
    times out on its first lock and returns -1 with the memory as it
    found it: [deadlock_detections] is not incremented. *)
Theorem timeout_is_not_counted rnd tid from to amount s :
  run rnd tid (mutex_trylock_timed from 100) s = ([], Done ETIMEDOUT s) /\
  run rnd tid (transfer_timeout from to amount) s = ([], Done (-1) s).
Proof. split; reflexivity. Qed.

(** With the placeholder [mutex_trylock_timed], a call of
    [transfer_timeout] fails at its first lock, and [transfer_trylock]
    is [return -1]: such a call has taken no lock and holds none.  The
    second timeout branch of [transfer_timeout] is never entered
    here. *)
Theorem failure_holds_no_lock rnd tid (f : nat -> nat -> Z -> prog Z)
    from to amount s tr r s' :
  f = transfer_timeout \/ f = transfer_trylock ->
  run rnd tid (f from to amount) s = (tr, Done r s') ->
  r <> 0 ->
  count is_lock tr = 0%nat /\
  lock_at s' from = lock_at s from /\ lock_at s' to = lock_at s to /\
  (held_by tid s = [] -> held_by tid s' = []).
Proof. by intros [-> | ->] [= <- _ <-] _. Qed.

Lemma failure_holds_no_lock_witness :
  count is_lock [] = 0%nat /\
  lock_at scenario_A 0%nat = lock_at scenario_A 0%nat /\
  lock_at scenario_A 1%nat = lock_at scenario_A 1%nat /\
  (held_by 0%nat scenario_A = [] -> held_by 0%nat scenario_A = []).
Proof.
  apply (failure_holds_no_lock (fun _ => 0) 0%nat transfer_timeout
           0%nat 1%nat 5 scenario_A [] (-1) scenario_A).
  - left. reflexivity.
  - reflexivity.
  - lia.
Defined.

(** [transfer_timeout] is the instance of [transfer_timeout_with] at
    the timed lock of the file. *)
Lemma transfer_timeout_instance :
  transfer_timeout = transfer_timeout_with mutex_trylock_timed.
Proof. reflexivity. Qed.




(** C4.  In modes 1 and 3 a call of the transfer function that
    returns failure leaves the account array, hence both balances, as
    it was; so does the whole retry loop of a transfer the worker
    gives up, which counts it once in [failed_transfers]. *)
Theorem failure_leaves_balances rnd tid args (f : nat -> nat -> Z -> prog Z)
    from to amount s :
  mode args = 1 /\ f = transfer_timeout \/
  mode args = 3 /\ f = transfer_trylock ->
  (forall tr r s',
     run rnd tid (f from to amount) s = (tr, Done r s') -> r <> 0 ->
     balance_at s' from = balance_at s from /\
     balance_at s' to = balance_at s to /\ accounts s' = accounts s) /\
  (forall tr u s',
     run rnd tid (worker_dispatch args from to amount) s = (tr, Done u s') ->
     balance_at s' from = balance_at s from /\
     balance_at s' to = balance_at s to /\ accounts s' = accounts s /\
     failed_transfers (stats s') = wrap64 (failed_transfers (stats s) + 1)).
Proof.
  intros Hm. split.
  - by destruct Hm as [[_ ->] | [_ ->]]; intros tr r s' [= _ _ <-] _.
  - intros tr u s' H.
    destruct (worker_dispatch_gives_up rnd tid args from to amount s)
      as (tr' & s'' & H' & Ha & Hs & _); [tauto|].
    rewrite H' in H. injection H as _ Heq. subst s''.
    unfold balance_at. rewrite Ha, Hs. done.
Qed.

Lemma failure_leaves_balances_witness :
  balance_at scenario_A 0%nat = Some 1000 /\
  balance_at scenario_A 1%nat = Some 1000.
Proof.
  destruct (failure_leaves_balances (fun _ => 0) 0%nat (WorkerArgs 2 1 1)
              transfer_timeout 0%nat 1%nat 5 scenario_A) as [H _].
  - left. split; reflexivity.
  - destruct (H [] (-1) scenario_A) as (H0 & H1 & _).
    + reflexivity.
    + lia.
    + split; [exact H0 | exact H1].
Defined.

(** C6, as the code has it.  In modes 1 and 3 the loop around the
    transfer function does not end within 1000 iterations, that is
    1000 calls: it ends in the 1001st, with [retry_count] at 1001,
    after 1001 increments of [retries] and 1000 sleeps.  It then has
    incremented [failed_transfers] exactly once, leaves the accounts
    untouched, and the worker goes on to the next value of [i]. *)
Theorem worker_retry_cap rnd tid args from to amount s i :
  mode args = 1 \/ mode args = 3 ->
  exists attempt backoff tr s',
    (attempt = transfer_timeout from to amount \/
     attempt = transfer_trylock from to amount) /\
    worker_dispatch args from to amount
      = (retry_loop retry_fuel attempt backoff 0 ;; Ret tt) /\
    snd (run rnd tid (retry_loop 1000 attempt backoff 0) s) = Cut /\
    run rnd tid (retry_loop 1001 attempt backoff 0) s = (tr, Done 1001 s') /\
    run rnd tid (worker_dispatch args from to amount) s = (tr, Done tt s') /\
    count (is_add c_retries) tr = 1001%nat /\
    count is_usleep tr = 1000%nat /\
    count (is_add c_failed_transfers) tr = 1%nat /\
    count (is_add c_successful_transfers) tr = 0%nat /\
    stats s' = abandoned (stats s) 1001 /\
    accounts s' = accounts s /\
    run rnd tid (worker_dispatch args from to amount ;; Ret (i + 1)) s
      = (tr, Done (i + 1) s') /\
    (i + 1 < transfers args ->
     thread_step rnd args tid (Running (Ret (i + 1))) s'
       = Some (Running (worker_body args (i + 1)), s')).
Proof.
  intros Hm.
  destruct (worker_dispatch_gives_up rnd tid args from to amount s Hm)
    as (tr & s' & Hrun & Ha & Hs & Hu & Hr & Hf & Hok & _).
  assert (forall backoff,
    (forall s0, exists tr0 x s0',
        run rnd tid backoff s0 = (tr0, Done x s0') /\
        accounts s0' = accounts s0 /\ stats s0' = stats s0 /\
        count is_usleep tr0 = 1%nat /\
        (forall c, count (is_add c) tr0 = 0%nat)) ->
    run rnd tid (retry_loop retry_fuel (Ret (-1)) backoff 0 ;; Ret tt) s
      = (tr, Done tt s') ->
    snd (run rnd tid (retry_loop 1000 (Ret (-1)) backoff 0) s) = Cut /\
    run rnd tid (retry_loop 1001 (Ret (-1)) backoff 0) s = (tr, Done 1001 s'))
    as Hloop.
  { intros backoff Hb H. split.
    - apply retry_loop_cut; [done | lia | done].
    - destruct (retry_loop_gives_up rnd tid backoff Hb retry_fuel 0 s)
        as (tr1 & s1 & H1 & _); [unfold max_retries; lia
                                | apply retry_fuel_enough |].
      rewrite run_bind, H1 in H. unfold prefix_trace in H. simpl in H.
      rewrite app_nil_r in H. injection H as <- <-. exact H1. }
  assert (run rnd tid (worker_dispatch args from to amount ;; Ret (i + 1)) s
          = (tr, Done (i + 1) s')) as Hnext.
  { rewrite run_bind, Hrun. unfold prefix_trace. simpl. by rewrite app_nil_r. }
  assert (i + 1 < transfers args ->
          thread_step rnd args tid (Running (Ret (i + 1))) s'
          = Some (Running (worker_body args (i + 1)), s')) as Hstep.
  { intros Hi. simpl. by rewrite (proj2 (Z.ltb_lt _ _) Hi). }
  destruct Hm as [Hm | Hm].
  - exists (transfer_timeout from to amount), (call (usleep (10 * 1000))),
      tr, s'.
    assert (worker_dispatch args from to amount
            = (retry_loop retry_fuel (transfer_timeout from to amount)
                 (call (usleep (10 * 1000))) 0 ;; Ret tt)) as Heq.
    { unfold worker_dispatch. by rewrite Hm. }
    rewrite Heq in Hrun.
    destruct (Hloop _ (backoff_timeout_sleeps rnd tid) Hrun) as [Hcut Hend].
    rewrite <- Heq in Hrun. by repeat split; try (left; reflexivity).
  - exists (transfer_trylock from to amount),
      (r <- call rand ;; call (usleep (Z.rem r 1000000))), tr, s'.
    assert (worker_dispatch args from to amount
            = (retry_loop retry_fuel (transfer_trylock from to amount)
                 (r <- call rand ;; call (usleep (Z.rem r 1000000))) 0 ;;
               Ret tt)) as Heq.
    { unfold worker_dispatch. by rewrite Hm. }
    rewrite Heq in Hrun.
    destruct (Hloop _ (backoff_trylock_sleeps rnd tid) Hrun) as [Hcut Hend].
    rewrite <- Heq in Hrun. by repeat split; try (right; reflexivity).
Qed.

Lemma worker_retry_cap_witness :
  exists tr s',
    run (fun _ => 0) 0%nat (worker_dispatch (WorkerArgs 2 1 1) 0 1 5)
        scenario_A = (tr, Done tt s') /\
    count (is_add c_retries) tr = 1001%nat /\
    count (is_add c_failed_transfers) tr = 1%nat.
Proof.
  destruct (worker_retry_cap (fun _ => 0) 0%nat (WorkerArgs 2 1 1)
              0%nat 1%nat 5 scenario_A 0 (or_introl eq_refl))
    as (attempt & backoff & tr & s' & _ & _ & _ & _ & Hrun & Hr & _ & Hf & _).
  exists tr, s'. split; [exact Hrun | split; [exact Hr | exact Hf]].
Defined.

(** C6 as stated fails: 1000 attempts do not end the loop of mode 1;
    the 1001st does. *)
Lemma retry_cap_counterexample :
  ~ (exists tr rc s',
       run (fun _ => 0) 0%nat
           (retry_loop 1000 (transfer_timeout 0 1 5)
                       (call (usleep (10 * 1000))) 0) scenario_A
       = (tr, Done rc s')) /\
  (exists tr s',
       run (fun _ => 0) 0%nat
           (retry_loop 1001 (transfer_timeout 0 1 5)
                       (call (usleep (10 * 1000))) 0) scenario_A
       = (tr, Done 1001 s') /\
       retries (stats s') = 1001 /\ failed_transfers (stats s') = 1).
Proof.
  split.
  - intros (tr & rc & s' & H). apply (f_equal snd) in H.
    vm_compute in H. discriminate H.
  - eexists _, _. split; [vm_compute; reflexivity|]. split; reflexivity.
Qed.

(** ** The draws of the worker *)

Lemma rand_range (rnd : nat -> Z) n : 0 <= rnd n mod (RAND_MAX + 1) <= RAND_MAX.
Proof.
  pose proof (Z.mod_pos_bound (rnd n) (RAND_MAX + 1)). unfold RAND_MAX in *.
  lia.
Qed.

(** C10.  Each iteration of the worker makes its draws and then
    either finds them equal, in which case it has done nothing but
    the two draws and restores [i], or calls [worker_dispatch] with
    two different accounts of the array and an amount between 1 and
    10. *)
Theorem worker_draws_valid rnd tid args i s :
  0 < num_accounts args ->
  exists tr0 s0,
    (exists r1 r2,
       run rnd tid (worker_select args) s = (tr0, Done None s0) /\
       tr0 = [(rand, r1); (rand, r2)] /\
       accounts s0 = accounts s /\ stats s0 = stats s /\
       run rnd tid (worker_body args i) s = (tr0, Done i s0)) \/
    (exists from_id to_id amount,
       run rnd tid (worker_select args) s
         = (tr0, Done (Some (from_id, to_id, amount)) s0) /\
       from_id <> to_id /\
       0 <= from_id < num_accounts args /\
       0 <= to_id < num_accounts args /\
       1 <= amount <= 10 /\
       Z.to_nat from_id <> Z.to_nat to_id /\
       run rnd tid (worker_body args i) s
         = prefix_trace tr0
             (run rnd tid
                  (worker_dispatch args (Z.to_nat from_id) (Z.to_nat to_id)
                                   amount ;; Ret (i + 1)) s0)).
Proof.
  intros Hn. unfold worker_body. rewrite run_bind.
  unfold worker_select, call. cbn [bind run exec_op rand_calls].
  pose proof (rand_range rnd (rand_calls s)) as H1.
  pose proof (rand_range rnd (S (rand_calls s))) as H2.
  pose proof (rand_range rnd (S (S (rand_calls s)))) as H3.
  set (r1 := rnd (rand_calls s) mod (RAND_MAX + 1)) in *.
  set (r2 := rnd (S (rand_calls s)) mod (RAND_MAX + 1)) in *.
  set (r3 := rnd (S (S (rand_calls s))) mod (RAND_MAX + 1)) in *.
  pose proof (Z.rem_bound_pos r1 (num_accounts args)) as B1.
  pose proof (Z.rem_bound_pos r2 (num_accounts args)) as B2.
  pose proof (Z.rem_bound_pos r3 10) as B3.
  destruct (Z.eqb_spec (Z.rem r1 (num_accounts args))
                       (Z.rem r2 (num_accounts args))) as [Heq | Hne].
  - eexists _, _. left. exists r1, r2. cbn [run]. repeat split.
    unfold prefix_trace. simpl. do 2 f_equal. lia.
  - eexists _, _. right. eexists _, _, _.
    cbn [run exec_op rand_calls accounts stats]. fold r3.
    split; [reflexivity|]. repeat split; try lia.
Qed.

Lemma worker_draws_valid_witness :
  exists from_id to_id amount tr0 s0,
    run (fun n => Z.of_nat n) 0%nat (worker_select (WorkerArgs 2 0 1))
        scenario_A = (tr0, Done (Some (from_id, to_id, amount)) s0) /\
    from_id <> to_id /\ 1 <= amount <= 10.
Proof.
  destruct (worker_draws_valid (fun n => Z.of_nat n) 0%nat (WorkerArgs 2 0 1)
              0 scenario_A)
    as (tr0 & s0 & [(r1 & r2 & H & _) | (f & t & a & H & Hne & _ & _ & Ha & _)]).
  - simpl. lia.
  - vm_compute in H. discriminate H.
  - exists f, t, a, tr0, s0. split; [exact H | split; [exact Hne | exact Ha]].
Defined.

(** ** The arguments of [main] *)

Lemma parse_options_usage argv0 opts : forall nt tp m,
  Exists (fun o => recognized (opt o) = false) opts ->
  parse_options argv0 opts nt tp m = inl (usage_message argv0).
Proof.
  induction opts as [| o opts IH]; intros nt tp m Hex.
  - by apply Exists_nil in Hex.
  - cbn [parse_options]. unfold recognized in Hex.
    destruct (Ascii.eqb (opt o) "t") eqn:Et; [apply IH|].
    { apply Exists_cons in Hex as [Hex | Hex]; [|done].
      by rewrite Et in Hex. }
    destruct (Ascii.eqb (opt o) "n") eqn:En; [apply IH|].
    { apply Exists_cons in Hex as [Hex | Hex]; [|done].
      by rewrite Et, En in Hex. }
    destruct (Ascii.eqb (opt o) "m") eqn:Em; [apply IH|].
    { apply Exists_cons in Hex as [Hex | Hex]; [|done].
      by rewrite Et, En, Em in Hex. }
    done.
Qed.

(** C9, as the code has it.  An option character without a case in
    the [switch] makes [main] print the usage message on the error
    stream; otherwise a mode outside 0..3 makes it print its two
    first banner lines and then "Invalid mode" on the error stream.
    In both cases [main] exits with status 1 and no account array has
    been created. *)
Theorem main_rejects_bad_arguments argv0 opts rnd sched t0 t1 :
  (Exists (fun o => recognized (opt o) = false) opts ->
   main argv0 opts rnd sched t0 t1 = Exit (usage_message argv0) 1 None) /\
  (forall nt tp m,
     parse_options argv0 opts NUM_THREADS TRANSFERS_PER_THREAD 0
       = inr (nt, tp, m) ->
     ~ 0 <= m <= 3 ->
     main argv0 opts rnd sched t0 t1
       = Exit [Print stdout "=== Deadlock Lab ===\n" [];
               Print stdout "Mode: " [];
               Print stderr "Invalid mode\n" []] 1 None).
Proof.
  split.
  - intros Hex. unfold main. by rewrite parse_options_usage.
  - intros nt tp m Hparse Hm. unfold main. rewrite Hparse.
    unfold print_mode.
    destruct (Z.eqb_spec m 0); [lia|]. destruct (Z.eqb_spec m 1); [lia|].
    destruct (Z.eqb_spec m 2); [lia|]. destruct (Z.eqb_spec m 3); [lia|].
    reflexivity.
Qed.

Lemma main_rejects_bad_arguments_witness :
  main "bank" [GetOpt "t" 2; GetOpt "?" 0] (fun _ => 0) [] 0 0
    = Exit (usage_message "bank") 1 None /\
  main "bank" [GetOpt "m" 4] (fun _ => 0) [] 0 0
    = Exit [Print stdout "=== Deadlock Lab ===\n" [];
            Print stdout "Mode: " [];
            Print stderr "Invalid mode\n" []] 1 None.
Proof.
  split.
  - apply (proj1 (main_rejects_bad_arguments "bank"
                    [GetOpt "t" 2; GetOpt "?" 0] (fun _ => 0) [] 0 0)).
    apply Exists_cons_tl, Exists_cons_hd. reflexivity.
  - apply (proj2 (main_rejects_bad_arguments "bank"
                    [GetOpt "m" 4] (fun _ => 0) [] 0 0) NUM_THREADS
                 TRANSFERS_PER_THREAD 4).
    + reflexivity.
    + lia.
Defined.

(** C9 as stated fails: for [-m 7] nothing of the usage message is
    printed. *)
Lemma invalid_mode_counterexample :
  exists out,
    main "bank" [GetOpt "m" 7] (fun _ => 0) [] 0 0 = Exit out 1 None /\
    existsb is_usage out = false.
Proof. eexists. split; reflexivity. Qed.

(** ** The discipline of the code *)

Lemma disc_bind {A B : Type} n (p : prog A) (f : A -> prog B) Q :
  forall own pend,
    disc n own pend p (fun a own' pend' => disc n own' pend' (f a) Q) ->
    disc n own pend (bind p f) Q.
Proof.
  induction p as [a | e k IH |]; intros own pend H; simpl in *; [done | | done].
  destruct H as [Hq H]. split; [done|].
  destruct e as [a | a | a | a w | c | | us].
  - destruct H as (Ha & Hfree & Hk). auto.
  - destruct H as (Hheld & Hk). auto.
  - destruct H as (Hheld & Hk). auto.
  - destruct H as (v & Hv & Hk). eauto.
  - auto.
  - auto.
  - auto.
Qed.

Lemma own_upd_eq own a o : own_upd own a o a = o.
Proof. unfold own_upd. by rewrite Nat.eqb_refl. Qed.

Lemma own_upd_ne own a o b : b <> a -> own_upd own a o b = own b.
Proof. unfold own_upd. intros H. by rewrite (proj2 (Nat.eqb_neq b a) H). Qed.

Ltac own_simpl :=
  repeat first [ rewrite own_upd_eq | rewrite own_upd_ne by done ].

Ltac own_simpl_in H :=
  repeat first [ rewrite own_upd_eq in H | rewrite own_upd_ne in H by done ].

(** Walks through the obligations of [disc] on straight-line code;
    [a] is an account the thread holds wherever it owes money. *)
Ltac disc_walk a :=
  repeat match goal with
  | |- no_lock _ -> _ =>
      let Hq := fresh "Hq" in
      intros Hq;
      first [ lia
            | exfalso; specialize (Hq a); own_simpl_in Hq; discriminate Hq ]
  | |- _ /\ _ => split
  | |- exists _, _ => eexists
  | |- forall _, _ => intro
  | |- (_ < _)%nat => assumption
  | |- _ = None => own_simpl; solve [auto]
  | |- _ <> None => own_simpl; discriminate
  | |- _ = Some _ => own_simpl; reflexivity
  end.

Lemma transfer_naive_disc n from to amount own
    (Q : unit -> ownership -> Z -> Prop) :
  from <> to -> (from < n)%nat -> (to < n)%nat -> no_lock own ->
  (forall own' pend', no_lock own' -> pend' = 0 -> Q tt own' pend') ->
  disc n own 0 (transfer_naive from to amount) Q.
Proof.
  intros Hne Hf Ht Hown HQ.
  assert (to <> from) as Hne' by done.
  unfold transfer_naive, perform_transfer, call. cbn [bind disc].
  disc_walk from.
  apply HQ; [|lia].
  intros b. unfold own_upd.
  destruct (Nat.eqb b from), (Nat.eqb b to); auto.
Qed.

Lemma retry_loop_disc n (backoff : prog Z) own
    (Q : Z -> ownership -> Z -> Prop) :
  (forall Q' : Z -> ownership -> Z -> Prop,
     (forall x, Q' x own 0) -> disc n own 0 backoff Q') ->
  no_lock own ->
  (forall x, Q x own 0) ->
  forall fuel rc,
    0 <= rc <= max_retries ->
    (Z.to_nat (max_retries - rc) < fuel)%nat ->
    disc n own 0 (retry_loop fuel (Ret (-1)) backoff rc) Q.
Proof.
  intros Hb Hown HQ.
  induction fuel as [| fuel IH]; intros rc Hrc Hfuel; [lia|].
  cbn [retry_loop bind]. change (-1 =? 0) with false. cbv iota.
  unfold call at 1. cbn [bind disc]. split; [done|]. intros _.
  destruct (Z.gtb_spec (rc + 1) max_retries) as [Hlast | Hmore].
  - unfold call. cbn [bind disc]. split; [done|]. intros _. apply HQ.
  - apply disc_bind, Hb. intros _. apply IH; lia.
Qed.

Lemma worker_dispatch_disc n args from to amount own
    (Q : unit -> ownership -> Z -> Prop) :
  from <> to -> (from < n)%nat -> (to < n)%nat -> no_lock own ->
  (forall own' pend', no_lock own' -> pend' = 0 -> Q tt own' pend') ->
  disc n own 0 (worker_dispatch args from to amount) Q.
Proof.
  intros Hne Hf Ht Hown HQ. unfold worker_dispatch.
  destruct (mode args =? 0); [by apply transfer_naive_disc|].
  destruct (mode args =? 1).
  { apply disc_bind. rewrite transfer_timeout_fails.
    apply retry_loop_disc;
      [ | done | | unfold max_retries; lia | apply retry_fuel_enough ].
    - intros Q' HQ'. unfold call. cbn [disc]. by split.
    - intros _. by apply HQ. }
  destruct (mode args =? 2).
  { unfold transfer_ordered, call. cbn [bind disc]. split; [done|].
    intros _. by apply HQ. }
  destruct (mode args =? 3); [|by apply HQ].
  apply disc_bind. rewrite transfer_trylock_fails.
  apply retry_loop_disc;
    [ | done | | unfold max_retries; lia | apply retry_fuel_enough ].
  - intros Q' HQ'. unfold call. cbn [bind disc]. split; [done|].
    intros x _. by split.
  - intros _. by apply HQ.
Qed.

Lemma worker_body_disc n args i own :
  num_accounts args = Z.of_nat n -> (0 < n)%nat -> no_lock own ->
  disc n own 0 (worker_body args i) settled.
Proof.
  intros Hn Hpos Hown. unfold worker_body, worker_select, call.
  cbn [bind disc].
  split; [done|]. intros r1 H1. split; [done|]. intros r2 H2.
  destruct (Z.eqb_spec (Z.rem r1 (num_accounts args))
                       (Z.rem r2 (num_accounts args))) as [Heq | Hne].
  { cbn [bind disc]. by split. }
  cbn [bind disc]. split; [done|]. intros r3 H3.
  pose proof (Z.rem_bound_pos r1 (num_accounts args)) as B1.
  pose proof (Z.rem_bound_pos r2 (num_accounts args)) as B2.
  apply disc_bind, worker_dispatch_disc; [lia | lia | lia | done |].
  intros own' pend' Hown' ->. by split.
Qed.

(** ** The invariant of the interleaved execution *)

Lemma sum_balances_sumZ l : sum_balances l = sumZ (balance <$> l).
Proof.
  unfold sum_balances.
  assert (forall z, foldl (fun total acc => total + balance acc) z l
                    = z + sumZ (balance <$> l)) as H.
  { induction l as [| a l IH]; intros z; csimpl; [unfold sumZ; simpl; lia|].
    rewrite IH. unfold sumZ. simpl. by rewrite <- Z.add_assoc. }
  by rewrite H.
Qed.

Lemma sumZ_insert (l : list Z) i x y :
  l !! i = Some y -> sumZ (<[i := x]> l) = sumZ l - y + x.
Proof.
  revert i. induction l as [| z l IH]; intros [| i] H; simplify_eq/=.
  - lia.
  - rewrite (IH i H). lia.
Qed.

Lemma sum_balances_insert (l : list account_t) a acc acc' :
  l !! a = Some acc ->
  sum_balances (<[a := acc']> l)
  = sum_balances l - balance acc + balance acc'.
Proof.
  intros H. rewrite !sum_balances_sumZ, list_fmap_insert.
  apply sumZ_insert. by rewrite list_lookup_fmap, H.
Qed.

Lemma sumZ_pending_insert (G : list (ownership * Z)) t g g' :
  G !! t = Some g ->
  sumZ (snd <$> <[t := g']> G) = sumZ (snd <$> G) - snd g + snd g'.
Proof.
  intros H. rewrite list_fmap_insert. apply sumZ_insert.
  by rewrite list_lookup_fmap, H.
Qed.

(** Thread [t] moves without touching the accounts and keeps its
    ownership and pending money. *)
Lemma invariant_keep n total G st t g th' s' :
  invariant_with n total G st ->
  G !! t = Some g ->
  accounts s' = accounts (mem st) ->
  thread_ok n g th' ->
  invariant_with n total G (System s' (<[t := th']> (pool st))).
Proof.
  intros (HlenG & Hlen & Hok & Hlock & Hview & Hrange & Hsum) Hg Hacc Hth.
  unfold invariant_with. simpl. rewrite length_insert, Hacc.
  repeat split; try done.
  - intros t1 th1 g1 Hp Hg1. destruct (decide (t1 = t)) as [-> |].
    + rewrite list_lookup_insert_eq in Hp
        by (rewrite <- HlenG; by eapply lookup_lt_Some).
      by simplify_eq.
    + rewrite list_lookup_insert_ne in Hp by done. by eapply Hok.
  - by apply Hlock.
  - by apply Hlock.
Qed.

(** Thread [t] changes account [a] from [acc] to [acc'], its
    ownership of [a] to [o], and puts the difference of the balances
    on its pending money.  No other thread holds [a]. *)
Lemma invariant_update n total G st t own pend th' a acc acc' o stats' calls' :
  invariant_with n total G st ->
  G !! t = Some (own, pend) ->
  accounts (mem st) !! a = Some acc ->
  (lock acc = None \/ lock acc = Some t) ->
  (lock acc' = None \/ lock acc' = Some t) ->
  (lock acc' = Some t <-> o <> None) ->
  (forall v, o = Some (Some v) -> balance acc' = v) ->
  thread_ok n (own_upd own a o, pend + balance acc - balance acc') th' ->
  invariant_with n total
    (<[t := (own_upd own a o, pend + balance acc - balance acc')]> G)
    (System (Shared (<[a := acc']> (accounts (mem st))) stats' calls')
            (<[t := th']> (pool st))).
Proof.
  intros (HlenG & Hlen & Hok & Hlock & Hview & Hrange & Hsum)
         Hg Ha Hold Hnew Ho Hv Hth.
  assert (t < length G)%nat as Ht by by eapply lookup_lt_Some.
  assert (a < length (accounts (mem st)))%nat as Hlt by by eapply lookup_lt_Some.
  unfold invariant_with. simpl. rewrite !length_insert.
  split; [done|]. split; [done|]. split; [|split; [|split; [|split]]].
  - intros t1 th1 g1 Hp Hg1. destruct (decide (t1 = t)) as [-> |].
    + rewrite list_lookup_insert_eq in Hp by lia.
      rewrite list_lookup_insert_eq in Hg1 by done. by simplify_eq.
    + rewrite list_lookup_insert_ne in Hp by done.
      rewrite list_lookup_insert_ne in Hg1 by done. by eapply Hok.
  - intros a1 acc1 t1 g1 Ha1 Hg1.
    destruct (decide (t1 = t)) as [-> |], (decide (a1 = a)) as [-> |].
    + rewrite list_lookup_insert_eq in Ha1 by lia.
      rewrite list_lookup_insert_eq in Hg1 by done. simplify_eq/=.
      by rewrite own_upd_eq.
    + rewrite list_lookup_insert_ne in Ha1 by done.
      rewrite list_lookup_insert_eq in Hg1 by done. simplify_eq/=.
      rewrite own_upd_ne by done. by apply (Hlock a1 acc1 t (own, pend)).
    + rewrite list_lookup_insert_eq in Ha1 by lia.
      rewrite list_lookup_insert_ne in Hg1 by done. simplify_eq/=.
      pose proof (Hlock a acc t1 g1 Ha Hg1) as Hl. split.
      * intros Hl1. destruct Hnew as [Hn | Hn]; rewrite Hn in Hl1; congruence.
      * intros Hg1a. apply Hl in Hg1a.
        destruct Hold as [Hn | Hn]; rewrite Hn in Hg1a; congruence.
    + rewrite list_lookup_insert_ne in Ha1 by done.
      rewrite list_lookup_insert_ne in Hg1 by done. by apply Hlock.
  - intros t1 g1 a1 v acc1 Hg1 Hg1v Ha1.
    destruct (decide (t1 = t)) as [-> |], (decide (a1 = a)) as [-> |].
    + rewrite list_lookup_insert_eq in Ha1 by lia.
      rewrite list_lookup_insert_eq in Hg1 by done. simplify_eq/=.
      rewrite own_upd_eq in Hg1v. by apply Hv.
    + rewrite list_lookup_insert_ne in Ha1 by done.
      rewrite list_lookup_insert_eq in Hg1 by done. simplify_eq/=.
      rewrite own_upd_ne in Hg1v by done.
      by apply (Hview t (own, pend) a1 v acc1).
    + rewrite list_lookup_insert_ne in Hg1 by done.
      assert (lock acc = Some t1) as Hl.
      { apply (Hlock a acc t1 g1 Ha Hg1). by rewrite Hg1v. }
      destruct Hold as [Hn | Hn]; rewrite Hn in Hl; congruence.
    + rewrite list_lookup_insert_ne in Ha1 by done.
      rewrite list_lookup_insert_ne in Hg1 by done. by eapply Hview.
  - intros t1 g1 a1 Hg1 Hg1a.
    destruct (decide (a1 = a)) as [-> |]; [lia|].
    destruct (decide (t1 = t)) as [-> |].
    + rewrite list_lookup_insert_eq in Hg1 by done. simplify_eq/=.
      rewrite own_upd_ne in Hg1a by done. by apply (Hrange t (own, pend)).
    + rewrite list_lookup_insert_ne in Hg1 by done. by eapply Hrange.
  - rewrite (sum_balances_insert _ a acc acc' Ha).
    rewrite (sumZ_pending_insert G t (own, pend) _ Hg). simpl. lia.
Qed.

(** Every step of every thread preserves the invariant. *)
Lemma invariant_step rnd args n total t st st' :
  num_accounts args = Z.of_nat n -> (0 < n)%nat ->
  invariant n total st ->
  sys_step rnd args t st = Some st' ->
  invariant n total st'.
Proof.
  intros Hn Hpos (G & HI) Hstep. unfold sys_step in Hstep.
  destruct st as [[accs sts calls] pl]. simpl in Hstep.
  destruct (pl !! t) as [th |] eqn:Hp; [|done].
  destruct (thread_step rnd args t th (Shared accs sts calls))
    as [[th' s'] |] eqn:Hts; [|done].
  injection Hstep as <-.
  pose proof HI as (HlenG & Hlen & Hok & Hlock & Hview & Hrange & Hsum).
  simpl in HlenG, Hlen, Hok, Hlock, Hview.
  destruct (G !! t) as [[own pend] |] eqn:Hg.
  2:{ apply lookup_ge_None in Hg. apply lookup_lt_Some in Hp. lia. }
  pose proof (Hok t th (own, pend) Hp Hg) as Hth.
  destruct th as [p |]; [|done].
  destruct p as [i | e k |]; simpl in Hts, Hth; [| |done].
  - (* the loop test *)
    destruct Hth as [Hown ->]. exists G.
    destruct (i <? transfers args); injection Hts as <- <-;
      apply (invariant_keep n total G (System (Shared accs sts calls) pl) t (own, 0)); try done.
    by apply worker_body_disc.
  - destruct Hth as [Hq Hth].
    destruct (exec_op rnd t e (Shared accs sts calls)) as [x s1 | |] eqn:He;
      [|done|done].
    injection Hts as <- <-.
    destruct e as [a | a | a | a w | c | | us].
    + (* pthread_mutex_lock *)
      destruct Hth as (Ha & Hfree & Hk).
      apply exec_lock_Ok in He as (acc & Hacc & Hl & -> & ->).
      eexists. unfold update_account. simpl.
      eapply (invariant_update n total G (System (Shared accs sts calls) pl)
                t own pend _ a acc
                (set_lock acc (Some t)) (Some None)); try done.
      * by left.
      * by right.
      * simpl. by replace (pend + balance acc - balance acc) with pend by lia.
    + (* pthread_mutex_unlock *)
      destruct Hth as (Hheld & Hk).
      apply exec_unlock_Ok in He as (acc & Hacc & Hl & -> & ->).
      eexists. unfold update_account. simpl.
      eapply (invariant_update n total G (System (Shared accs sts calls) pl)
                t own pend _ a acc
                (set_lock acc None) None); try done.
      * by right.
      * by left.
      * simpl. by replace (pend + balance acc - balance acc) with pend by lia.
    + (* load_balance *)
      destruct Hth as (Hheld & Hk).
      apply exec_load_Ok in He as (Hb & ->). unfold balance_at in Hb.
      simpl in Hb. destruct (accs !! a) as [acc |] eqn:Hacc; [|done].
      injection Hb as <-.
      assert (lock acc = Some t) as Hl
        by by apply (Hlock a acc t (own, pend)).
      eexists.
      rewrite <- (list_insert_id accs a acc Hacc) at 1.
      eapply (invariant_update n total G (System (Shared accs sts calls) pl)
                t own pend _ a acc acc
                (Some (Some (balance acc)))); try done.
      * by right.
      * by right.
      * by intros v [= <-].
      * simpl. replace (pend + balance acc - balance acc) with pend by lia.
        apply Hk.
    + (* store_balance *)
      destruct Hth as (v & Hv & Hk).
      apply exec_store_Ok in He as (acc & Hacc & -> & ->).
      assert (lock acc = Some t) as Hl.
      { apply (Hlock a acc t (own, pend)); try done. simpl. by rewrite Hv. }
      assert (balance acc = v) as <-
        by by apply (Hview t (own, pend) a v acc).
      eexists. unfold update_account. simpl.
      eapply (invariant_update n total G (System (Shared accs sts calls) pl)
                t own pend _ a acc
                (set_balance acc w) (Some (Some w))); try done.
      * by right.
      * by right.
      * by intros v [= <-].
    + (* sync_fetch_and_add *)
      simpl in He. injection He as <- <-. exists G.
      apply (invariant_keep n total G (System (Shared accs sts calls) pl) t (own, pend)); try done.
      simpl. apply Hth.
    + (* rand *)
      simpl in He. injection He as <- <-. exists G.
      apply (invariant_keep n total G (System (Shared accs sts calls) pl) t (own, pend)); try done.
      simpl. apply Hth, rand_range.
    + (* usleep *)
      simpl in He. injection He as <- <-. exists G.
      by apply (invariant_keep n total G (System (Shared accs sts calls) pl) t (own, pend)).
Qed.

Lemma sumZ_zero (l : list Z) : Forall (fun z => z = 0) l -> sumZ l = 0.
Proof. induction 1 as [| z l -> _ IH]; [done|]. unfold sumZ in *. simpl. lia. Qed.

(** The invariant holds when the workers have been created. *)
Lemma invariant_spawn num_threads accts :
  Forall (fun acc => lock acc = None) accts ->
  invariant (length accts) (sum_balances accts) (spawn num_threads accts).
Proof.
  intros Hfree.
  exists (replicate (Z.to_nat num_threads) ((fun _ => None) : ownership, 0)).
  unfold invariant_with, spawn. simpl. rewrite !length_replicate.
  split; [done|]. split; [done|]. split; [|split; [|split; [|split]]].
  - intros t th g [-> _]%lookup_replicate [-> _]%lookup_replicate. by split.
  - intros a acc t g Ha [-> _]%lookup_replicate. simpl.
    rewrite Forall_lookup in Hfree. rewrite (Hfree a acc Ha). by split.
  - by intros t g a v acc [-> _]%lookup_replicate.
  - by intros t g a [-> _]%lookup_replicate.
  - rewrite sumZ_zero; [lia|].
    apply Forall_fmap, Forall_replicate. done.
Qed.

Lemma invariant_exec rnd args n total sched : forall st st',
  num_accounts args = Z.of_nat n -> (0 < n)%nat ->
  invariant n total st ->
  exec_schedule rnd args sched st = Some st' ->
  invariant n total st'.
Proof.
  induction sched as [| t sched IH]; intros st st' Hn Hpos HI Hex; simpl in Hex.
  - by injection Hex as <-.
  - destruct (sys_step rnd args t st) as [st1 |] eqn:Hstep; [|done].
    apply (IH st1 st' Hn Hpos); [|done].
    by apply (invariant_step rnd args n total t st st1).
Qed.

(** A thread that holds no lock owes nothing. *)
Lemma thread_ok_settled n g th :
  thread_ok n g th -> no_lock (fst g) -> snd g = 0.
Proof.
  destruct th as [[i | e k |] |]; simpl; try tauto. by intros [_ ->].
Qed.

(** Whenever no mutex is held the balances make the total. *)
Lemma invariant_quiescent n total st :
  invariant n total st -> quiescent st ->
  sum_balances (accounts (mem st)) = total.
Proof.
  intros (G & HlenG & Hlen & Hok & Hlock & Hview & Hrange & Hsum) Hq.
  rewrite sumZ_zero in Hsum; [lia|].
  apply Forall_fmap, Forall_lookup. intros t g Hg. simpl.
  destruct (pool st !! t) as [th |] eqn:Hp.
  2:{ apply lookup_ge_None in Hp. apply lookup_lt_Some in Hg. lia. }
  apply (thread_ok_settled n g th); [by eapply Hok|].
  intros a. destruct (fst g a) as [o |] eqn:Hga; [|done]. exfalso.
  assert (a < n)%nat as Ha by (apply (Hrange t g a Hg); by rewrite Hga).
  destruct (accounts (mem st) !! a) as [acc |] eqn:Hacc.
  2:{ apply lookup_ge_None in Hacc. lia. }
  assert (lock acc = Some t) as Hl
    by (apply (Hlock a acc t g Hacc Hg); by rewrite Hga).
  by rewrite (Hq a acc Hacc) in Hl.
Qed.

(** After the joins the balances make the total. *)
Lemma invariant_joined n total st :
  invariant n total st -> all_joined st = true ->
  sum_balances (accounts (mem st)) = total.
Proof.
  intros (G & HlenG & Hlen & Hok & Hlock & Hview & Hrange & Hsum) Hj.
  rewrite sumZ_zero in Hsum; [lia|].
  apply Forall_fmap, Forall_lookup. intros t g Hg. simpl.
  destruct (pool st !! t) as [th |] eqn:Hp.
  2:{ apply lookup_ge_None in Hp. apply lookup_lt_Some in Hg. lia. }
  unfold all_joined in Hj. rewrite forallb_forall in Hj.
  assert (exited th = true) as Hex.
  { apply Hj. apply list_elem_of_In. by eapply list_elem_of_lookup_2. }
  destruct th as [p |]; [done|]. by destruct (Hok t Exited g Hp Hg).
Qed.

(** No thread of a reachable state is about to run into undefined
    behaviour or has run out of fuel. *)
Lemma invariant_safe rnd n total st t p :
  invariant n total st ->
  pool st !! t = Some (Running p) ->
  match p with
  | Ret _ => True
  | Op e _ => exec_op rnd t e (mem st) <> Fault
  | OutOfFuel => False
  end.
Proof.
  intros (G & HlenG & Hlen & Hok & Hlock & Hview & Hrange & Hsum) Hp.
  destruct (G !! t) as [[own pend] |] eqn:Hg.
  2:{ apply lookup_ge_None in Hg. apply lookup_lt_Some in Hp. lia. }
  pose proof (Hok t _ _ Hp Hg) as Hth. simpl in Hth.
  destruct p as [i | e k |]; [done | | done].
  destruct Hth as [_ Hth].
  assert (forall a, own a <> None ->
            exists acc, accounts (mem st) !! a = Some acc /\
                        lock acc = Some t) as Hheld.
  { intros a Ha. pose proof (Hrange t _ a Hg Ha) as Hlt.
    destruct (accounts (mem st) !! a) as [acc |] eqn:Hacc.
    - exists acc. split; [done|]. by apply (Hlock a acc t (own, pend)).
    - apply lookup_ge_None in Hacc. lia. }
  destruct e as [a | a | a | a w | c | | us]; simpl; try done.
  - destruct Hth as (Ha & _).
    destruct (accounts (mem st) !! a) as [acc |] eqn:Hacc.
    + by destruct (lock acc).
    + apply lookup_ge_None in Hacc. lia.
  - destruct Hth as (Ha & _). destruct (Hheld a Ha) as (acc & -> & ->).
    by rewrite Nat.eqb_refl.
  - destruct Hth as (Ha & _). by destruct (Hheld a Ha) as (acc & -> & _).
  - destruct Hth as (v & Ha & _).
    destruct (Hheld a) as (acc & -> & _); [by rewrite Ha | done].
Qed.

(** ** Conservation *)

(** [init_accounts] overwrites whatever the array held. *)
Lemma init_accounts_overwrites (garbage : list account_t) :
  length garbage = Z.to_nat NUM_ACCOUNTS ->
  init_accounts garbage NUM_ACCOUNTS INITIAL_BALANCE = fresh_accounts.
Proof.
  intros H. do 11 (destruct garbage as [| ? garbage]; try done).
Qed.

Lemma reachable_invariant rnd mode num_threads transfers_per_thread sched st :
  exec_schedule rnd (WorkerArgs NUM_ACCOUNTS mode transfers_per_thread) sched
                (spawn num_threads fresh_accounts) = Some st ->
  invariant (Z.to_nat NUM_ACCOUNTS) (NUM_ACCOUNTS * INITIAL_BALANCE) st.
Proof.
  intros Hex.
  eapply (invariant_exec rnd _ _ _ sched _ st); [| |  | exact Hex].
  - reflexivity.
  - unfold NUM_ACCOUNTS. lia.
  - apply (invariant_spawn num_threads fresh_accounts).
    repeat constructor.
Qed.

Lemma verify_total_ok accts n total :
  length accts = Z.to_nat n -> sum_balances accts = total ->
  snd (verify_total accts n total) = 1.
Proof.
  intros Hlen Hsum. unfold verify_total.
  rewrite take_ge by lia. rewrite Hsum, Z.eqb_refl. done.
Qed.

(** C1.  For every mode, every number of threads and every number of
    transfers per thread (in particular at least one thread and no
    negative number of transfers), and every interleaving of the
    workers: once all of them have returned, the balances of the ten
    accounts sum to [NUM_ACCOUNTS * INITIAL_BALANCE], and
    [verify_total] says so. *)
Theorem conservation_after_join rnd mode num_threads transfers_per_thread
    sched st :
  exec_schedule rnd (WorkerArgs NUM_ACCOUNTS mode transfers_per_thread) sched
                (spawn num_threads fresh_accounts) = Some st ->
  all_joined st = true ->
  sum_balances (accounts (mem st)) = NUM_ACCOUNTS * INITIAL_BALANCE /\
  snd (verify_total (accounts (mem st)) NUM_ACCOUNTS
                    (NUM_ACCOUNTS * INITIAL_BALANCE)) = 1.
Proof.
  intros Hex Hj. pose proof (reachable_invariant _ _ _ _ _ _ Hex) as HI.
  pose proof (invariant_joined _ _ _ HI Hj) as Hsum.
  split; [done|]. apply verify_total_ok; [|done].
  by destruct HI as (G & _ & Hlen & _).
Qed.

Lemma conservation_after_join_witness :
  exists st,
    exec_schedule (fun n => Z.of_nat n) (WorkerArgs NUM_ACCOUNTS 0 1)
                  (alternating 15) (spawn 2 fresh_accounts) = Some st /\
    all_joined st = true /\
    balance_at (mem st) 0%nat = Some 995 /\
    balance_at (mem st) 2%nat = Some 1005 /\
    sum_balances (accounts (mem st)) = NUM_ACCOUNTS * INITIAL_BALANCE.
Proof.
  destruct (exec_schedule (fun n => Z.of_nat n) (WorkerArgs NUM_ACCOUNTS 0 1)
              (alternating 15) (spawn 2 fresh_accounts)) as [st |] eqn:Hex.
  - exists st.
    assert (all_joined st = true /\ balance_at (mem st) 0%nat = Some 995 /\
            balance_at (mem st) 2%nat = Some 1005) as (Hj & H0 & H2).
    { vm_compute in Hex. injection Hex as <-. repeat split. }
    destruct (conservation_after_join _ _ _ _ _ _ Hex Hj) as [Hsum _].
    repeat split; assumption.
  - vm_compute in Hex. discriminate Hex.
Defined.

(** X1.  At every moment of a run at which no mutex is held, the
    balances sum to the initial total. *)
Lemma conservation_when_quiescent rnd mode num_threads transfers_per_thread
    sched st :
  exec_schedule rnd (WorkerArgs NUM_ACCOUNTS mode transfers_per_thread) sched
                (spawn num_threads fresh_accounts) = Some st ->
  quiescent st ->
  sum_balances (accounts (mem st)) = NUM_ACCOUNTS * INITIAL_BALANCE.
Proof.
  intros Hex Hq. eapply invariant_quiescent; [|done].
  by eapply reachable_invariant.
Qed.


(** X4.  A run of [main] that gets past its argument checks and joins
    its workers exits with status 0, the accounts summing to the
    initial total. *)
Lemma main_exit_status argv0 opts rnd sched t0 t1 out status accts :
  main argv0 opts rnd sched t0 t1 = Exit out status (Some accts) ->
  status = 0 /\ sum_balances accts = NUM_ACCOUNTS * INITIAL_BALANCE.
Proof.
  unfold main.
  destruct (parse_options argv0 opts NUM_THREADS TRANSFERS_PER_THREAD 0)
    as [usage | [[nt tp] m]]; [done|].
  destruct (print_mode m) as [mode_line valid]. destruct valid; [|done].
  cbn [negb].
  destruct (exec_schedule rnd (WorkerArgs NUM_ACCOUNTS m tp) sched
              (spawn nt (init_accounts uninitialized_accounts NUM_ACCOUNTS
                                       INITIAL_BALANCE)))
    as [st |] eqn:Hex; [|done].
  destruct (all_joined st) eqn:Hj; [|done].
  pose proof (reachable_invariant _ _ _ _ _ _ Hex) as HI.
  pose proof (invariant_joined _ _ _ HI Hj) as Hsum.
  assert (snd (verify_total (accounts (mem st)) NUM_ACCOUNTS
                 (NUM_ACCOUNTS * INITIAL_BALANCE)) = 1) as Hv.
  { apply verify_total_ok; [|done]. by destruct HI as (G & _ & Hlen & _). }
  unfold report.
  destruct (verify_total (accounts (mem st)) NUM_ACCOUNTS
              (NUM_ACCOUNTS * INITIAL_BALANCE)) as [vout ok].
  simpl in Hv. subst ok. simpl. by intros [= _ <- <-].
Qed.

(** * Further properties of the interleaved execution *)

Lemma reachable_invariant' rnd mode num_threads transfers_per_thread st :
  reachable rnd mode num_threads transfers_per_thread st ->
  invariant (Z.to_nat NUM_ACCOUNTS) (NUM_ACCOUNTS * INITIAL_BALANCE) st.
Proof. intros [sched Hex]. by eapply reachable_invariant. Qed.

Lemma reachable_step rnd mode num_threads transfers_per_thread st t st' :
  reachable rnd mode num_threads transfers_per_thread st ->
  sys_step rnd (main_args mode transfers_per_thread) t st = Some st' ->
  reachable rnd mode num_threads transfers_per_thread st'.
Proof.
  intros [sched Hex] Hstep. exists (sched ++ [t]).
  revert Hex. generalize (spawn num_threads fresh_accounts).
  induction sched as [| t1 sched IH]; intros st0 Hex; simpl in *.
  - injection Hex as ->. by rewrite Hstep.
  - destruct (sys_step rnd (main_args mode transfers_per_thread) t1 st0);
      [by apply IH | done].
Qed.

Lemma quiescent_Forall st :
  Forall (fun acc => lock acc = None) (accounts (mem st)) -> quiescent st.
Proof.
  intros H a acc Ha. rewrite Forall_lookup in H. by apply (H a).
Qed.

Lemma conservation_when_quiescent_witness :
  exists st,
    exec_schedule (fun n => Z.of_nat n) (WorkerArgs NUM_ACCOUNTS 0 1)
                  (replicate 14 0%nat) (spawn 2 fresh_accounts) = Some st /\
    balance_at (mem st) 0%nat = Some 997 /\
    sum_balances (accounts (mem st)) = NUM_ACCOUNTS * INITIAL_BALANCE.
Proof.
  destruct (exec_schedule (fun n => Z.of_nat n) (WorkerArgs NUM_ACCOUNTS 0 1)
              (replicate 14 0%nat) (spawn 2 fresh_accounts)) as [st |] eqn:Hex.
  - exists st. split; [reflexivity|].
    assert (Forall (fun acc => lock acc = None) (accounts (mem st)) /\
            balance_at (mem st) 0%nat = Some 997) as [Hfree Hb].
    { vm_compute in Hex. injection Hex as <-. split; [|reflexivity].
      repeat constructor. }
    split; [exact Hb|].
    exact (conservation_when_quiescent _ _ _ _ _ _ Hex
             (quiescent_Forall st Hfree)).
  - vm_compute in Hex. discriminate Hex.
Defined.


(** A thread about to read or write a balance holds the mutex of the
    account. *)
Lemma invariant_access_held n total st t e k a :
  invariant n total st ->
  pool st !! t = Some (Running (Op e k)) ->
  accesses e = Some a ->
  lock_at (mem st) a = Some (Some t).
Proof.
  intros (G & HlenG & Hlen & Hok & Hlock & Hview & Hrange & Hsum) Hp He.
  destruct (G !! t) as [[own pend] |] eqn:Hg.
  2:{ apply lookup_ge_None in Hg. apply lookup_lt_Some in Hp. lia. }
  pose proof (Hok t _ _ Hp Hg) as [_ Hth].
  assert (own a <> None) as Ha.
  { destruct e as [| | b | b w | | |]; simplify_eq/=.
    - by destruct Hth.
    - destruct Hth as (v & Hv & _). by rewrite Hv. }
  pose proof (Hrange t _ a Hg Ha) as Hlt.
  unfold lock_at.
  destruct (accounts (mem st) !! a) as [acc |] eqn:Hacc.
  - f_equal. by apply (Hlock a acc t (own, pend)).
  - apply lookup_ge_None in Hacc. lia.
Qed.

(** X3.  Freedom from data races on the balances: in every state of a
    run, a thread whose next operation reads or writes the balance of
    an account holds the mutex of that account, and no other thread is
    about to read or write the same balance. *)
Theorem balance_access_under_lock rnd mode num_threads transfers_per_thread
    st t e k a :
  reachable rnd mode num_threads transfers_per_thread st ->
  pool st !! t = Some (Running (Op e k)) ->
  accesses e = Some a ->
  lock_at (mem st) a = Some (Some t) /\
  forall t' e' k',
    pool st !! t' = Some (Running (Op e' k')) ->
    accesses e' = Some a -> t' = t.
Proof.
  intros Hr Hp He. pose proof (reachable_invariant' _ _ _ _ _ Hr) as HI.
  pose proof (invariant_access_held _ _ _ _ _ _ _ HI Hp He) as Hl.
  split; [done|]. intros t' e' k' Hp' He'.
  pose proof (invariant_access_held _ _ _ _ _ _ _ HI Hp' He') as Hl'.
  congruence.
Qed.

Lemma balance_access_under_lock_witness :
  exists st,
    exec_schedule (fun n => Z.of_nat n) (main_args 0 1)
                  (replicate 7 0%nat) (spawn 2 fresh_accounts) = Some st /\
    lock_at (mem st) 0%nat = Some (Some 0%nat).
Proof.
  destruct (exec_schedule (fun n => Z.of_nat n) (main_args 0 1)
              (replicate 7 0%nat) (spawn 2 fresh_accounts)) as [st |] eqn:Hex.
  - destruct (pool st !! 0%nat) as [[[i | e k |] |] |] eqn:Hp;
      try (exfalso; vm_compute in Hex; injection Hex as <-;
           vm_compute in Hp; discriminate Hp).
    exists st. split; [reflexivity|].
    assert (accesses e = Some 0%nat) as He.
    { vm_compute in Hex. injection Hex as <-. vm_compute in Hp.
      by injection Hp as <- _. }
    exact (proj1 (balance_access_under_lock (fun n => Z.of_nat n) 0 2 1
                    st 0%nat e k 0%nat (ex_intro _ _ Hex) Hp He)).
  - vm_compute in Hex. discriminate Hex.
Defined.

Lemma main_exit_status_witness :
  exists out accts,
    main "bank" [GetOpt "t" 2; GetOpt "n" 1; GetOpt "m" 0]
         (fun n => Z.of_nat n) (alternating 15) 5 10
      = Exit out 0 (Some accts) /\
    sum_balances accts = NUM_ACCOUNTS * INITIAL_BALANCE.
Proof.
  destruct (main "bank" [GetOpt "t" 2; GetOpt "n" 1; GetOpt "m" 0]
              (fun n => Z.of_nat n) (alternating 15) 5 10)
    as [out status [accts |] |] eqn:Hmain;
    try (exfalso; vm_compute in Hmain; discriminate Hmain).
  destruct (main_exit_status _ _ _ _ _ _ _ _ _ Hmain) as [-> Hsum].
  exists out, accts. split; [reflexivity | exact Hsum].
Defined.

(** ** Who holds the mutexes *)

Lemma sys_step_inv rnd args t st st' :
  sys_step rnd args t st = Some st' ->
  exists th th' s',
    pool st !! t = Some th /\
    thread_step rnd args t th (mem st) = Some (th', s') /\
    st' = System s' (<[t := th']> (pool st)).
Proof.
  unfold sys_step. destruct (pool st !! t) as [th |]; [|done].
  destruct (thread_step rnd args t th (mem st)) as [[th' s'] |] eqn:Hts;
    [|done].
  intros [= <-]. by exists th, th', s'.
Qed.

Lemma sys_step_pool_length rnd args t st st' :
  sys_step rnd args t st = Some st' -> length (pool st') = length (pool st).
Proof.
  intros (th & th' & s' & _ & _ & ->)%sys_step_inv. simpl.
  apply length_insert.
Qed.

Lemma exec_schedule_pool_length rnd args sched : forall st st',
  exec_schedule rnd args sched st = Some st' ->
  length (pool st') = length (pool st).
Proof.
  induction sched as [| t sched IH]; intros st st' Hex; simpl in Hex.
  - by injection Hex as <-.
  - destruct (sys_step rnd args t st) as [st1 |] eqn:Hstep; [|done].
    rewrite (IH _ _ Hex). by eapply sys_step_pool_length.
Qed.

(** What one operation does to the owner of a mutex: it stays, or the
    mutex was free and the thread took it, or the thread held it and
    released it. *)
Lemma exec_op_lock_at rnd t e s x s' a :
  exec_op rnd t e s = Ok x s' ->
  lock_at s' a = lock_at s a \/
  (lock_at s a = Some None /\ lock_at s' a = Some (Some t)) \/
  (lock_at s a = Some (Some t) /\ lock_at s' a = Some None).
Proof.
  unfold lock_at.
  destruct e as [b | b | b | b w | c | | us]; simpl.
  - destruct (accounts s !! b) as [acc |] eqn:Hb; [|done].
    destruct (lock acc) eqn:Hl; [done|]. intros [= <- <-].
    rewrite lookup_update_account. case_decide as Hab; [|by left].
    subst b. rewrite Hb. right. left. by rewrite Hl.
  - destruct (accounts s !! b) as [acc |] eqn:Hb; [|done].
    destruct (lock acc) as [owner |] eqn:Hl; [|done].
    destruct (Nat.eqb_spec owner t) as [-> |]; [|done]. intros [= <- <-].
    rewrite lookup_update_account. case_decide as Hab; [|by left].
    subst b. rewrite Hb. right. right. by rewrite Hl.
  - destruct (accounts s !! b); [|done]. intros [= <- <-]. by left.
  - destruct (accounts s !! b) as [acc |] eqn:Hb; [|done]. intros [= <- <-].
    rewrite lookup_update_account. case_decide as Hab; [|by left].
    subst b. rewrite Hb. by left.
  - intros [= <- <-]. by left.
  - intros [= <- <-]. by left.
  - intros [= <- <-]. by left.
Qed.

Lemma thread_step_lock_at rnd args t th s th' s' a :
  thread_step rnd args t th s = Some (th', s') ->
  lock_at s' a = lock_at s a \/
  (lock_at s a = Some None /\ lock_at s' a = Some (Some t)) \/
  (lock_at s a = Some (Some t) /\ lock_at s' a = Some None).
Proof.
  destruct th as [[i | e k |] |]; simpl; try done.
  - destruct (i <? transfers args); intros [= <- <-]; by left.
  - destruct (exec_op rnd t e s) as [x s1 | |] eqn:He; try done.
    intros [= <- <-]. by eapply exec_op_lock_at.
Qed.

Lemma owners_in_pool_step rnd args t st st' :
  owners_in_pool st -> sys_step rnd args t st = Some st' ->
  owners_in_pool st'.
Proof.
  intros Ho Hstep.
  pose proof (sys_step_pool_length _ _ _ _ _ Hstep) as Hlen.
  apply sys_step_inv in Hstep as (th & th' & s' & Hp & Hts & ->).
  intros a acc t1 Ha Hl. rewrite Hlen. simpl in Ha.
  assert (lock_at s' a = Some (Some t1)) as Hla
    by (unfold lock_at; by rewrite Ha, Hl).
  destruct (thread_step_lock_at _ _ _ _ _ _ _ a Hts)
    as [Heq | [[_ Hnew] | [_ Hnew]]].
  - rewrite Heq in Hla. unfold lock_at in Hla.
    destruct (accounts (mem st) !! a) as [acc0 |] eqn:Ha0; [|done].
    injection Hla as Hla. by apply (Ho a acc0 t1).
  - rewrite Hnew in Hla. injection Hla as <-. by eapply lookup_lt_Some.
  - by rewrite Hnew in Hla.
Qed.

Lemma owners_in_pool_exec rnd args sched : forall st st',
  owners_in_pool st -> exec_schedule rnd args sched st = Some st' ->
  owners_in_pool st'.
Proof.
  induction sched as [| t sched IH]; intros st st' Ho Hex; simpl in Hex.
  - by injection Hex as <-.
  - destruct (sys_step rnd args t st) as [st1 |] eqn:Hstep; [|done].
    apply (IH st1 st'); [|done]. by eapply owners_in_pool_step.
Qed.

Lemma reachable_owners rnd mode num_threads transfers_per_thread st :
  reachable rnd mode num_threads transfers_per_thread st ->
  owners_in_pool st.
Proof.
  intros [sched Hex]. eapply owners_in_pool_exec; [|exact Hex].
  intros a acc t Ha Hl. exfalso. revert a acc Ha Hl.
  change (forall a acc, fresh_accounts !! a = Some acc -> lock acc <> Some t).
  intros a acc Ha. 
  assert (Forall (fun acc => lock acc = None) fresh_accounts) as Hf
    by repeat constructor.
  rewrite Forall_lookup in Hf. by rewrite (Hf a acc Ha).
Qed.

(** X5.  No lock is leaked: once all workers have returned, every
    mutex is free. *)
Theorem all_free_after_join rnd mode num_threads transfers_per_thread st :
  reachable rnd mode num_threads transfers_per_thread st ->
  all_joined st = true ->
  quiescent st.
Proof.
  intros Hr Hj a acc Ha.
  destruct (lock acc) as [t |] eqn:Hl; [exfalso | done].
  pose proof (reachable_owners _ _ _ _ _ Hr a acc t Ha Hl) as Ht.
  destruct (reachable_invariant' _ _ _ _ _ Hr)
    as (G & HlenG & Hlen & Hok & Hlock & _).
  destruct (pool st !! t) as [th |] eqn:Hp.
  2:{ apply lookup_ge_None in Hp. lia. }
  destruct (G !! t) as [g |] eqn:Hg.
  2:{ apply lookup_ge_None in Hg. lia. }
  unfold all_joined in Hj. rewrite forallb_forall in Hj.
  assert (exited th = true) as Hex.
  { apply Hj. apply list_elem_of_In. by eapply list_elem_of_lookup_2. }
  destruct th as [p |]; [done|].
  destruct (Hok t Exited g Hp Hg) as [Hno _].
  apply (Hlock a acc t g Ha Hg) in Hl. by apply Hl.
Qed.

Lemma all_free_after_join_witness :
  exists st,
    exec_schedule (fun n => Z.of_nat n) (main_args 0 1) (alternating 15)
                  (spawn 2 fresh_accounts) = Some st /\
    lock_at (mem st) 0%nat = Some None /\
    lock_at (mem st) 3%nat = Some None.
Proof.
  destruct (exec_schedule (fun n => Z.of_nat n) (main_args 0 1)
              (alternating 15) (spawn 2 fresh_accounts)) as [st |] eqn:Hex.
  - exists st. split; [reflexivity|].
    assert (all_joined st = true) as Hj
      by (vm_compute in Hex; injection Hex as <-; reflexivity).
    pose proof (all_free_after_join (fun n => Z.of_nat n) 0 2 1 st
                  (ex_intro _ _ Hex) Hj) as Hq.
    assert (exists a0 a3, accounts (mem st) !! 0%nat = Some a0 /\
                          accounts (mem st) !! 3%nat = Some a3)
      as (a0 & a3 & H0 & H3).
    { vm_compute in Hex. injection Hex as <-.
      eexists _, _. split; reflexivity. }
    unfold lock_at. rewrite H0, H3, (Hq _ _ H0), (Hq _ _ H3).
    split; reflexivity.
  - vm_compute in Hex. discriminate Hex.
Defined.

(** ** Waiting and deadlock *)

Lemma exec_op_Wait rnd t e s :
  exec_op rnd t e s = Wait ->
  exists a owner, e = pthread_mutex_lock a /\ lock_at s a = Some (Some owner).
Proof.
  unfold lock_at.
  destruct e as [b | b | b | b w | c | | us]; simpl; try done.
  - destruct (accounts s !! b) as [acc |] eqn:Hb; [|done].
    destruct (lock acc) as [owner |] eqn:Hl; [|done]. intros _.
    exists b, owner. by rewrite Hb, Hl.
  - destruct (accounts s !! b) as [acc |]; [|done].
    destruct (lock acc) as [owner |]; [|done]. by destruct (owner =? t)%nat.
  - by destruct (accounts s !! b).
  - by destruct (accounts s !! b).
Qed.

(** A thread never asks for a mutex it already holds. *)
Lemma invariant_lock_not_held n total st t a k :
  invariant n total st ->
  pool st !! t = Some (Running (Op (pthread_mutex_lock a) k)) ->
  lock_at (mem st) a <> Some (Some t).
Proof.
  intros (G & HlenG & Hlen & Hok & Hlock & Hview & Hrange & Hsum) Hp Hl.
  destruct (G !! t) as [[own pend] |] eqn:Hg.
  2:{ apply lookup_ge_None in Hg. apply lookup_lt_Some in Hp. lia. }
  pose proof (Hok t _ _ Hp Hg) as [_ (_ & Hfree & _)]. simpl in Hfree.
  unfold lock_at in Hl.
  destruct (accounts (mem st) !! a) as [acc |] eqn:Ha; [|done].
  injection Hl as Hl. apply (Hlock a acc t (own, pend) Ha Hg) in Hl.
  by apply Hl.
Qed.

(** A worker that has not returned takes a step, or waits for a mutex
    that another worker holds. *)
Lemma step_or_wait rnd mode num_threads transfers_per_thread st t p :
  reachable rnd mode num_threads transfers_per_thread st ->
  pool st !! t = Some (Running p) ->
  (exists st', sys_step rnd (main_args mode transfers_per_thread) t st
               = Some st') \/
  (exists a k owner,
     p = Op (pthread_mutex_lock a) k /\
     lock_at (mem st) a = Some (Some owner) /\
     owner <> t /\ (owner < length (pool st))%nat).
Proof.
  intros Hr Hp. pose proof (reachable_invariant' _ _ _ _ _ Hr) as HI.
  pose proof (invariant_safe rnd _ _ st t p HI Hp) as Hsafe.
  unfold sys_step. rewrite Hp.
  destruct p as [i | e k |]; [| | done].
  - left. simpl. destruct (i <? transfers_per_thread); by eexists.
  - simpl. destruct (exec_op rnd t e (mem st)) as [x s1 | |] eqn:He;
      [left; by eexists | | done].
    right. apply exec_op_Wait in He as (a & owner & -> & Hl).
    exists a, k, owner. split; [done|]. split; [done|]. split.
    + intros ->. by apply (invariant_lock_not_held _ _ _ _ _ _ HI Hp).
    + unfold lock_at in Hl.
      destruct (accounts (mem st) !! a) as [acc |] eqn:Ha; [|done].
      injection Hl as Hl. by apply (reachable_owners _ _ _ _ _ Hr a acc).
Qed.

(** X6.  In every state of a run, a worker that has not returned can
    take its next step unless that step is the blocking lock of a
    mutex which another worker holds: nothing else ever makes a worker
    wait, and no worker waits for itself. *)
Theorem waits_only_for_another_worker rnd mode num_threads
    transfers_per_thread st t p :
  reachable rnd mode num_threads transfers_per_thread st ->
  pool st !! t = Some (Running p) ->
  sys_step rnd (main_args mode transfers_per_thread) t st = None ->
  exists a k owner,
    p = Op (pthread_mutex_lock a) k /\
    lock_at (mem st) a = Some (Some owner) /\
    owner <> t /\ (owner < length (pool st))%nat.
Proof.
  intros Hr Hp Hnone.
  destruct (step_or_wait _ _ _ _ _ _ _ Hr Hp) as [[st' Hs] | H]; [|done].
  by rewrite Hs in Hnone.
Qed.

(** X7.  A single worker never waits: with one thread every state of
    the run in which the worker has not returned has a next step. *)
Theorem single_worker_never_waits rnd mode num_threads transfers_per_thread
    st p :
  Z.to_nat num_threads = 1%nat ->
  reachable rnd mode num_threads transfers_per_thread st ->
  pool st !! 0%nat = Some (Running p) ->
  exists st', sys_step rnd (main_args mode transfers_per_thread) 0%nat st
              = Some st'.
Proof.
  intros Hone Hr Hp.
  destruct (step_or_wait _ _ _ _ _ _ _ Hr Hp)
    as [Hs | (a & k & owner & _ & _ & Hne & Hlt)]; [done|].
  destruct Hr as [sched Hex].
  apply exec_schedule_pool_length in Hex. unfold spawn in Hex. simpl in Hex.
  rewrite length_replicate, Hone in Hex. lia.
Qed.

Lemma circular_wait_step rnd args t st st' t0 t1 a b :
  circular_wait st t0 t1 a b ->
  sys_step rnd args t st = Some st' ->
  circular_wait st' t0 t1 a b.
Proof.
  intros ([k0 Hp0] & [k1 Hp1] & Ha & Hb) Hstep.
  apply sys_step_inv in Hstep as (th & th' & s' & Hp & Hts & ->).
  assert (forall t' c k owner,
            pool st !! t' = Some (Running (Op (pthread_mutex_lock c) k)) ->
            lock_at (mem st) c = Some (Some owner) -> t <> t') as Hstuck.
  { intros t' c k owner Hp' Hc ->. rewrite Hp in Hp'. injection Hp' as ->.
    simpl in Hts. unfold lock_at in Hc.
    destruct (accounts (mem st) !! c) as [acc |]; [|done].
    injection Hc as Hc. by rewrite Hc in Hts. }
  pose proof (Hstuck t0 b k0 t1 Hp0 Hb) as Hne0.
  pose proof (Hstuck t1 a k1 t0 Hp1 Ha) as Hne1.
  assert (forall c owner, lock_at (mem st) c = Some (Some owner) ->
            t <> owner -> lock_at s' c = Some (Some owner)) as Hkeep.
  { intros c owner Hc Hne.
    destruct (thread_step_lock_at _ _ _ _ _ _ _ c Hts)
      as [Heq | [[Hold _] | [Hold _]]]; congruence. }
  unfold circular_wait. simpl.
  rewrite !list_lookup_insert_ne by done.
  repeat split; eauto.
Qed.

(** X8.  The deadlock of the naive transfer is permanent: once two
    workers are in a circular wait, each holding the account the
    other one is about to lock, no continuation of the run, whatever
    the other workers do, ends the wait or lets all workers
    return. *)
Theorem circular_wait_is_permanent rnd args sched : forall st st' t0 t1 a b,
  circular_wait st t0 t1 a b ->
  exec_schedule rnd args sched st = Some st' ->
  circular_wait st' t0 t1 a b /\ all_joined st' = false.
Proof.
  induction sched as [| t sched IH]; intros st st' t0 t1 a b Hcw Hex;
    simpl in Hex.
  - injection Hex as <-. split; [done|].
    destruct Hcw as ([k0 Hp0] & _).
    destruct (all_joined st) eqn:Hj; [|done].
    unfold all_joined in Hj. rewrite forallb_forall in Hj.
    assert (exited (Running (Op (pthread_mutex_lock b) k0)) = true) as Hx.
    { apply Hj. apply list_elem_of_In. by eapply list_elem_of_lookup_2. }
    done.
  - destruct (sys_step rnd args t st) as [st1 |] eqn:Hstep; [|done].
    apply (IH st1 st'); [|done]. by eapply circular_wait_step.
Qed.

Lemma circular_wait_is_permanent_witness :
  exists st,
    exec_schedule opposite_draws (main_args 0 1)
                  (replicate 6 0%nat ++ replicate 6 1%nat)
                  (spawn 2 fresh_accounts) = Some st /\
    forall sched st',
      exec_schedule opposite_draws (main_args 0 1) sched st = Some st' ->
      all_joined st' = false.
Proof.
  destruct (exec_schedule opposite_draws (main_args 0 1)
              (replicate 6 0%nat ++ replicate 6 1%nat)
              (spawn 2 fresh_accounts)) as [st |] eqn:Hex.
  - exists st. split; [reflexivity|].
    assert (circular_wait st 0 1 0 1) as Hcw.
    { vm_compute in Hex. injection Hex as <-.
      split; [eexists; reflexivity|]. split; [eexists; reflexivity|].
      split; reflexivity. }
    intros sched st' Hex'.
    exact (proj2 (circular_wait_is_permanent opposite_draws (main_args 0 1)
                    sched st st' 0%nat 1%nat 0%nat 1%nat Hcw Hex')).
  - vm_compute in Hex. discriminate Hex.
Defined.

Lemma waits_only_for_another_worker_witness :
  exists st a owner,
    exec_schedule opposite_draws (main_args 0 1)
                  (replicate 6 0%nat ++ replicate 6 1%nat)
                  (spawn 2 fresh_accounts) = Some st /\
    lock_at (mem st) a = Some (Some owner) /\ owner <> 0%nat.
Proof.
  destruct (exec_schedule opposite_draws (main_args 0 1)
              (replicate 6 0%nat ++ replicate 6 1%nat)
              (spawn 2 fresh_accounts)) as [st |] eqn:Hex.
  - destruct (pool st !! 0%nat) as [[p |] |] eqn:Hp;
      try (exfalso; vm_compute in Hex; injection Hex as <-;
           vm_compute in Hp; discriminate Hp).
    assert (sys_step opposite_draws (main_args 0 1) 0%nat st = None) as Hnone.
    { vm_compute in Hex. injection Hex as <-. vm_compute. reflexivity. }
    destruct (waits_only_for_another_worker opposite_draws 0 2 1 st 0%nat p
                (ex_intro _ _ Hex) Hp Hnone)
      as (a & k & owner & _ & Hl & Hne & _).
    exists st, a, owner. split; [reflexivity|]. split; [exact Hl | exact Hne].
  - vm_compute in Hex. discriminate Hex.
Defined.

Lemma single_worker_never_waits_witness :
  exists st st',
    exec_schedule (fun n => Z.of_nat n) (main_args 0 1) (replicate 6 0%nat)
                  (spawn 1 fresh_accounts) = Some st /\
    sys_step (fun n => Z.of_nat n) (main_args 0 1) 0%nat st = Some st'.
Proof.
  destruct (exec_schedule (fun n => Z.of_nat n) (main_args 0 1)
              (replicate 6 0%nat) (spawn 1 fresh_accounts)) as [st |] eqn:Hex.
  - destruct (pool st !! 0%nat) as [[p |] |] eqn:Hp;
      try (exfalso; vm_compute in Hex; injection Hex as <-;
           vm_compute in Hp; discriminate Hp).
    destruct (single_worker_never_waits (fun n => Z.of_nat n) 0 1 1 st p
                eq_refl (ex_intro _ _ Hex) Hp) as [st' Hs].
    exists st, st'. split; [reflexivity | exact Hs].
  - vm_compute in Hex. discriminate Hex.
Defined.

(** ** The counters of the report *)

Lemma tally_bind {A B : Type} quiet (p : prog A) (f : A -> prog B)
    (Q : B -> stats_t -> Prop) :
  forall v,
    tally quiet v p (fun a v' => tally quiet v' (f a) Q) ->
    tally quiet v (bind p f) Q.
Proof.
  induction p as [a | e k IH |]; intros v H; simpl in *; [done | | done].
  destruct e as [a | a | a | a w | c | | us]; try (split; [tauto|]); 
    intros; apply IH; try apply H; done.
Qed.

Lemma get_set_counter c c' z v :
  get_counter c' (set_counter c z v)
  = if decide (c' = c) then z else get_counter c' v.
Proof. destruct c, c'; by case_decide. Qed.

Lemma retry_loop_tally quiet (backoff : prog Z)
    (Q : Z -> stats_t -> Prop) :
  (forall v (Q' : Z -> stats_t -> Prop),
     (forall x, Q' x v) -> tally quiet v backoff Q') ->
  forall fuel rc v,
    0 <= rc <= max_retries ->
    (Z.to_nat (max_retries - rc) < fuel)%nat ->
    (forall x v', v' = Stats (successful_transfers v) (failed_transfers v + 1)
                              (deadlock_detections v)
                              (retries v + (max_retries + 1 - rc)) ->
                  Q x v') ->
    tally quiet v (retry_loop fuel (Ret (-1)) backoff rc) Q.
Proof.
  intros Hb.
  induction fuel as [| fuel IH]; intros rc v Hrc Hfuel HQ; [lia|].
  cbn [retry_loop bind]. change (-1 =? 0) with false. cbv iota.
  unfold call at 1. cbn [bind tally]. intros _.
  destruct (Z.gtb_spec (rc + 1) max_retries) as [Hlast | Hmore].
  - unfold call. cbn [bind tally]. intros _. apply HQ.
    unfold bump. simpl. f_equal. lia.
  - apply tally_bind, Hb. intros _. apply IH; [lia | lia |].
    intros x v' ->. apply HQ. unfold bump. simpl. f_equal. lia.
Qed.

Lemma transfer_naive_tally from to amount v (Q : unit -> stats_t -> Prop) :
  Q tt (bump c_successful_transfers v) ->
  tally false v (transfer_naive from to amount) Q.
Proof.
  intros HQ. unfold transfer_naive, perform_transfer, call.
  cbn [bind tally]. repeat (split; [done|]; intros ?). done.
Qed.

Lemma counted_success mode i :
  mode = 0 \/ mode = 2 -> counted mode i = Stats i 0 0 0.
Proof. by intros [-> | ->]. Qed.

Lemma counted_failure mode i :
  mode = 1 \/ mode = 3 ->
  counted mode i = Stats 0 i 0 ((max_retries + 1) * i).
Proof. by intros [-> | ->]. Qed.

Lemma worker_dispatch_tally args from to amount i
    (Q : unit -> stats_t -> Prop) :
  0 <= mode args <= 3 ->
  Q tt (counted (mode args) (i + 1)) ->
  tally (quiet_mode (mode args)) (counted (mode args) i)
        (worker_dispatch args from to amount) Q.
Proof.
  intros Hm HQ.
  assert (mode args = 0 \/ mode args = 1 \/ mode args = 2 \/ mode args = 3)
    as Hcases by lia.
  unfold worker_dispatch, quiet_mode.
  destruct Hcases as [H | [H | [H | H]]]; rewrite H in HQ; rewrite H;
    cbv beta iota zeta;
    change (0 =? 0) with true; change (1 =? 0) with false;
    change (2 =? 0) with false; change (3 =? 0) with false;
    change (1 =? 1) with true; change (2 =? 1) with false;
    change (3 =? 1) with false; change (2 =? 2) with true;
    change (3 =? 2) with false; change (3 =? 3) with true;
    cbv beta iota; cbn [negb].
  - apply transfer_naive_tally.
    rewrite counted_success in HQ |- * by tauto. exact HQ.
  - apply tally_bind. rewrite transfer_timeout_fails.
    rewrite counted_failure in HQ |- * by tauto.
    apply retry_loop_tally.
    + intros v Q' HQ'. unfold call. cbn [tally]. intros x. apply HQ'.
    + unfold max_retries. lia.
    + apply retry_fuel_enough.
    + intros _ v' ->. cbn [tally successful_transfers failed_transfers
                             deadlock_detections retries].
      replace (Stats 0 (i + 1) 0 _) with (Stats 0 (i + 1) 0
                 ((max_retries + 1) * (i + 1))); [exact HQ|].
      f_equal. lia.
  - unfold transfer_ordered, call. cbn [bind tally]. intros _.
    rewrite counted_success in HQ |- * by tauto. exact HQ.
  - apply tally_bind. rewrite transfer_trylock_fails.
    rewrite counted_failure in HQ |- * by tauto.
    apply retry_loop_tally.
    + intros v Q' HQ'. unfold call. cbn [bind tally]. intros x _ y. apply HQ'.
    + unfold max_retries. lia.
    + apply retry_fuel_enough.
    + intros _ v' ->. cbn [tally successful_transfers failed_transfers
                             deadlock_detections retries].
      replace (Stats 0 (i + 1) 0 _) with (Stats 0 (i + 1) 0
                 ((max_retries + 1) * (i + 1))); [exact HQ|].
      f_equal. lia.
Qed.

Lemma worker_body_tally args i :
  0 <= mode args <= 3 -> 0 <= i < transfers args ->
  tally (quiet_mode (mode args)) (counted (mode args) i)
        (worker_body args i) (at_loop_test args).
Proof.
  intros Hm Hi. unfold worker_body, worker_select, call. cbn [bind tally].
  intros r1 H1 r2 H2.
  assert (0 <= i <= transfers_made args /\ 0 <= i + 1 <= transfers_made args)
    as [Hi0 Hi1] by (unfold transfers_made; lia).
  destruct (Z.rem r1 (num_accounts args) =? Z.rem r2 (num_accounts args)).
  - cbn [bind tally]. split; [|f_equal]; lia.
  - cbn [bind tally]. intros r3 H3.
    apply tally_bind, worker_dispatch_tally; [done|]. by split.
Qed.

Lemma exec_op_stats rnd t e s x s' :
  exec_op rnd t e s = Ok x s' ->
  stats s' = match e with
             | sync_fetch_and_add c =>
                 set_counter c (wrap64 (get_counter c (stats s) + 1)) (stats s)
             | _ => stats s
             end.
Proof.
  destruct e as [b | b | b | b w | c | | us]; simpl.
  - destruct (accounts s !! b) as [acc |]; [|done].
    destruct (lock acc); [done|]. by intros [= <- <-].
  - destruct (accounts s !! b) as [acc |]; [|done].
    destruct (lock acc) as [owner |]; [|done].
    destruct (owner =? t)%nat; [|done]. by intros [= <- <-].
  - destruct (accounts s !! b); [|done]. by intros [= <- <-].
  - destruct (accounts s !! b); [|done]. by intros [= <- <-].
  - by intros [= <- <-].
  - by intros [= <- <-].
  - by intros [= <- <-].
Qed.

Lemma sumZ_fmap_insert {A : Type} (f : A -> Z) (V : list A) t v v' :
  V !! t = Some v ->
  sumZ (f <$> <[t := v']> V) = sumZ (f <$> V) - f v + f v'.
Proof.
  intros H. rewrite list_fmap_insert. apply sumZ_insert.
  by rewrite list_lookup_fmap, H.
Qed.

Lemma sumZ_fmap_const {A : Type} (f : A -> Z) (V : list A) v0 :
  (forall t v, V !! t = Some v -> v = v0) ->
  sumZ (f <$> V) = Z.of_nat (length V) * f v0.
Proof.
  induction V as [| v V IH]; intros H; [done|].
  change (sumZ (f <$> v :: V)) with (f v + sumZ (f <$> V)).
  rewrite IH by (intros t v1 Hv1; exact (H (S t) v1 Hv1)).
  rewrite (H 0%nat v eq_refl). simpl length. lia.
Qed.

(** Thread [t] moves on with the count [v'] and the memory [s']. *)
Lemma counters_update args accts0 st V t v v' th' s' :
  length V = length (pool st) ->
  (forall t1 th v1, pool st !! t1 = Some th -> V !! t1 = Some v1 ->
                    thread_counted args v1 th) ->
  V !! t = Some v ->
  thread_counted args v' th' ->
  (forall c, get_counter c (stats s')
             = wrap64 (sumZ (get_counter c <$> <[t := v']> V))) ->
  (quiet_mode (mode args) = true -> accounts s' = accts0) ->
  counters_invariant args accts0 (System s' (<[t := th']> (pool st))).
Proof.
  intros Hlen Hok Hv Hth Hc Hq. exists (<[t := v']> V). simpl.
  rewrite !length_insert. split; [done|]. split; [|by split].
  assert (t < length V)%nat as Ht by by eapply lookup_lt_Some.
  intros t1 th v1 Hp Hv1. destruct (decide (t1 = t)) as [-> |].
  - rewrite list_lookup_insert_eq in Hp by lia.
    rewrite list_lookup_insert_eq in Hv1 by lia. by simplify_eq.
  - rewrite list_lookup_insert_ne in Hp by done.
    rewrite list_lookup_insert_ne in Hv1 by done. by eapply Hok.
Qed.

Lemma counters_step rnd args accts0 t st st' :
  0 <= mode args <= 3 ->
  counters_invariant args accts0 st ->
  sys_step rnd args t st = Some st' ->
  counters_invariant args accts0 st'.
Proof.
  intros Hm (V & Hlen & Hok & Hc & Hq) Hstep.
  apply sys_step_inv in Hstep as (th & th' & s' & Hp & Hts & ->).
  destruct (V !! t) as [v |] eqn:Hv.
  2:{ apply lookup_ge_None in Hv. apply lookup_lt_Some in Hp. lia. }
  pose proof (Hok t th v Hp Hv) as Hth.
  assert (forall c, get_counter c (stats (mem st))
                    = wrap64 (sumZ (get_counter c <$> <[t := v]> V))) as Hc'
    by (by rewrite (list_insert_id V t v Hv)).
  destruct th as [[i | e k |] |]; simpl in Hts, Hth; try done.
  - (* the loop test *)
    destruct Hth as [Hi ->].
    destruct (Z.ltb_spec i (transfers args)); injection Hts as <- <-;
      apply (counters_update args accts0 st V t _ (counted (mode args) i)
               _ _ Hlen Hok Hv);
      try done; simpl.
    + apply worker_body_tally; [done | lia].
    + f_equal. unfold transfers_made in *. lia.
  - destruct (exec_op rnd t e (mem st)) as [x s1 | |] eqn:He; try done.
    injection Hts as <- <-.
    pose proof (exec_op_stats _ _ _ _ _ _ He) as Hs.
    destruct e as [a | a | a | a w | c | | us];
      try (destruct Hth as [Hquiet Hth];
           apply (counters_update args accts0 st V t v v _ _ Hlen Hok Hv);
           [apply Hth | by rewrite Hs | by rewrite Hquiet]).
    + (* sync_fetch_and_add *)
      apply (counters_update args accts0 st V t v (bump c v) _ _ Hlen Hok Hv).
      * apply Hth.
      * intros c'. rewrite Hs, get_set_counter.
        rewrite (sumZ_fmap_insert _ V t v _ Hv). unfold bump.
        rewrite get_set_counter. case_decide as Hcc.
        -- subst c'. rewrite Hc, wrap64_add_l. f_equal. lia.
        -- rewrite Hc. f_equal. lia.
      * simpl in He. injection He as _ <-. exact Hq.
    + (* rand *)
      apply (counters_update args accts0 st V t v v _ _ Hlen Hok Hv).
      * simpl in He. injection He as <- _. apply Hth, rand_range.
      * by rewrite Hs.
      * simpl in He. injection He as _ <-. exact Hq.
    + (* usleep *)
      apply (counters_update args accts0 st V t v v _ _ Hlen Hok Hv).
      * apply Hth.
      * by rewrite Hs.
      * simpl in He. injection He as _ <-. exact Hq.
Qed.

Lemma counters_exec rnd args accts0 sched : forall st st',
  0 <= mode args <= 3 ->
  counters_invariant args accts0 st ->
  exec_schedule rnd args sched st = Some st' ->
  counters_invariant args accts0 st'.
Proof.
  induction sched as [| t sched IH]; intros st st' Hm HI Hex; simpl in Hex.
  - by injection Hex as <-.
  - destruct (sys_step rnd args t st) as [st1 |] eqn:Hstep; [|done].
    apply (IH st1 st' Hm); [|done]. by eapply counters_step.
Qed.

Lemma counters_spawn args num_threads accts0 :
  counters_invariant args accts0 (spawn num_threads accts0).
Proof.
  exists (replicate (Z.to_nat num_threads) (Stats 0 0 0 0)).
  unfold spawn. simpl. rewrite !length_replicate.
  split; [done|]. split; [|split; [|done]].
  - intros t th v [-> _]%lookup_replicate [-> _]%lookup_replicate. simpl.
    split; [unfold transfers_made; lia|].
    unfold counted. by destruct (_ || _).
  - intros c.
    rewrite (sumZ_fmap_const _ _ (Stats 0 0 0 0))
      by (by intros t v [-> _]%lookup_replicate).
    by destruct c; simpl; rewrite Z.mul_0_r.
Qed.

Lemma reachable_counters rnd mode num_threads transfers_per_thread st :
  0 <= mode <= 3 ->
  reachable rnd mode num_threads transfers_per_thread st ->
  counters_invariant (main_args mode transfers_per_thread) fresh_accounts st.
Proof.
  intros Hm [sched Hex].
  eapply counters_exec; [done | apply counters_spawn | exact Hex].
Qed.

(** X9.  The counters of the final report.  In modes 0 to 3, once all
    workers have returned, with [n] the number of transfers made
    (threads times transfers per thread, negative values counting as
    zero): in modes 0 and 2 [successful_transfers] is [n] and the
    other counters are zero; in modes 1 and 3 [failed_transfers] is
    [n], [retries] is [1001 * n] and the other counters are zero;
    each reduced modulo [2^64]. *)
Theorem report_counters rnd mode num_threads transfers_per_thread st :
  0 <= mode <= 3 ->
  reachable rnd mode num_threads transfers_per_thread st ->
  all_joined st = true ->
  let n := Z.max 0 num_threads * Z.max 0 transfers_per_thread in
  stats (mem st) =
    if (mode =? 0) || (mode =? 2) then Stats (wrap64 n) 0 0 0
    else Stats 0 (wrap64 n) 0 (wrap64 (1001 * n)).
Proof.
  intros Hm Hr Hj n.
  destruct (reachable_counters _ _ _ _ _ Hm Hr) as (V & Hlen & Hok & Hc & _).
  assert (length (pool st) = Z.to_nat num_threads) as Hpool.
  { destruct Hr as [sched Hex]. apply exec_schedule_pool_length in Hex.
    rewrite Hex. unfold spawn. simpl. apply length_replicate. }
  assert (forall t v, V !! t = Some v ->
            v = counted mode (Z.max 0 transfers_per_thread)) as Hall.
  { intros t v Hv. destruct (pool st !! t) as [th |] eqn:Hp.
    2:{ apply lookup_ge_None in Hp. apply lookup_lt_Some in Hv. lia. }
    unfold all_joined in Hj. rewrite forallb_forall in Hj.
    assert (exited th = true) as Hex.
    { apply Hj. apply list_elem_of_In. by eapply list_elem_of_lookup_2. }
    destruct th as [p |]; [done|]. exact (Hok t Exited v Hp Hv). }
  assert (forall c, get_counter c (stats (mem st))
            = wrap64 (Z.max 0 num_threads
                      * get_counter c
                          (counted mode (Z.max 0 transfers_per_thread))))
    as Hc'.
  { intros c. rewrite Hc, (sumZ_fmap_const _ V _ Hall), Hlen, Hpool.
    f_equal. f_equal. lia. }
  pose proof (Hc' c_successful_transfers) as Hs.
  pose proof (Hc' c_failed_transfers) as Hf.
  pose proof (Hc' c_deadlock_detections) as Hd.
  pose proof (Hc' c_retries) as Hrt.
  destruct (stats (mem st)) as [s f d r]. unfold counted in *. simpl in *.
  destruct ((mode =? 0) || (mode =? 2)); simpl in *; subst s f d r;
    rewrite ?Z.mul_0_r; f_equal; f_equal; unfold max_retries, n; lia.
Qed.

Lemma report_counters_witness :
  exists st,
    exec_schedule (fun n => Z.of_nat n) (main_args 2 1)
                  (replicate 6 0%nat ++ replicate 6 1%nat)
                  (spawn 2 fresh_accounts) = Some st /\
    stats (mem st) = Stats 2 0 0 0.
Proof.
  destruct (exec_schedule (fun n => Z.of_nat n) (main_args 2 1)
              (replicate 6 0%nat ++ replicate 6 1%nat)
              (spawn 2 fresh_accounts)) as [st |] eqn:Hex.
  - exists st. split; [reflexivity|].
    assert (all_joined st = true) as Hj
      by (vm_compute in Hex; injection Hex as <-; reflexivity).
    exact (report_counters (fun n => Z.of_nat n) 2 2 1 st
             ltac:(lia)
             (ex_intro _ _ Hex) Hj).
  - vm_compute in Hex. discriminate Hex.
Defined.

(** X10.  In modes 1, 2 and 3 no state of a run has an account that
    differs from its initial value: no balance ever changes and no
    mutex is ever taken. *)
Theorem quiet_modes_leave_accounts rnd mode num_threads transfers_per_thread
    st :
  1 <= mode <= 3 ->
  reachable rnd mode num_threads transfers_per_thread st ->
  accounts (mem st) = fresh_accounts.
Proof.
  intros Hm Hr.
  destruct (reachable_counters rnd mode num_threads transfers_per_thread st)
    as (V & _ & _ & _ & Hq); [lia | done |].
  apply Hq. unfold quiet_mode. simpl.
  destruct (Z.eqb_spec mode 0); [lia | done].
Qed.

Lemma quiet_modes_leave_accounts_witness :
  exists st,
    exec_schedule (fun n => Z.of_nat n) (main_args 2 1)
                  (replicate 5 0%nat ++ replicate 3 1%nat)
                  (spawn 2 fresh_accounts) = Some st /\
    successful_transfers (stats (mem st)) = 1 /\
    accounts (mem st) = fresh_accounts.
Proof.
  destruct (exec_schedule (fun n => Z.of_nat n) (main_args 2 1)
              (replicate 5 0%nat ++ replicate 3 1%nat)
              (spawn 2 fresh_accounts)) as [st |] eqn:Hex.
  - exists st. split; [reflexivity|]. split.
    + vm_compute in Hex. injection Hex as <-. reflexivity.
    + exact (quiet_modes_leave_accounts (fun n => Z.of_nat n) 2 2 1 st
               ltac:(lia)
               (ex_intro _ _ Hex)).
  - vm_compute in Hex. discriminate Hex.
Defined.

(** X11.  In modes 1, 2 and 3 no worker ever waits: in every state of
    a run every worker that has not returned has a next step, so
    these modes cannot deadlock. *)
Theorem quiet_modes_never_wait rnd mode num_threads transfers_per_thread
    st t p :
  1 <= mode <= 3 ->
  reachable rnd mode num_threads transfers_per_thread st ->
  pool st !! t = Some (Running p) ->
  exists st', sys_step rnd (main_args mode transfers_per_thread) t st
              = Some st'.
Proof.
  intros Hm Hr Hp.
  destruct (step_or_wait _ _ _ _ _ _ _ Hr Hp)
    as [Hs | (a & k & owner & -> & _)]; [done|].
  destruct (reachable_counters rnd mode num_threads transfers_per_thread st)
    as (V & Hlen & Hok & _); [lia | done |].
  destruct (V !! t) as [v |] eqn:Hv.
  2:{ apply lookup_ge_None in Hv. apply lookup_lt_Some in Hp. lia. }
  destruct (Hok t _ v Hp Hv) as [Hquiet _]. unfold quiet_mode in Hquiet.
  simpl in Hquiet. destruct (Z.eqb_spec mode 0); [lia | done].
Qed.

Lemma quiet_modes_never_wait_witness :
  exists st st',
    exec_schedule (fun n => Z.of_nat n) (main_args 2 1)
                  (replicate 4 0%nat ++ replicate 3 1%nat)
                  (spawn 2 fresh_accounts) = Some st /\
    sys_step (fun n => Z.of_nat n) (main_args 2 1) 1%nat st = Some st'.
Proof.
  destruct (exec_schedule (fun n => Z.of_nat n) (main_args 2 1)
              (replicate 4 0%nat ++ replicate 3 1%nat)
              (spawn 2 fresh_accounts)) as [st |] eqn:Hex.
  - destruct (pool st !! 1%nat) as [[p |] |] eqn:Hp;
      try (exfalso; vm_compute in Hex; injection Hex as <-;
           vm_compute in Hp; discriminate Hp).
    destruct (quiet_modes_never_wait (fun n => Z.of_nat n) 2 2 1 st 1%nat p
                ltac:(lia)
                (ex_intro _ _ Hex) Hp) as [st' Hs].
    exists st, st'. split; [reflexivity | exact Hs].
  - vm_compute in Hex. discriminate Hex.
Defined.

(** * Further properties of the sequential code *)

(** ** [init_accounts] and [verify_total] *)

Lemma init_loop_length initial_balance k : forall arr : list account_t,
  length (foldl (fun accounts i =>
                   <[i := Account (Z.of_nat i) initial_balance None]> accounts)
                arr (seq 0 k)) = length arr.
Proof.
  induction k as [| k IH]; intros arr; [done|].
  rewrite seq_S, foldl_app. simpl. by rewrite length_insert.
Qed.

Lemma init_loop_lookup initial_balance k : forall (arr : list account_t) i,
  foldl (fun accounts i =>
           <[i := Account (Z.of_nat i) initial_balance None]> accounts)
        arr (seq 0 k) !! i
  = if decide (i < k /\ i < length arr)%nat
    then Some (fresh_account initial_balance i) else arr !! i.
Proof.
  induction k as [| k IH]; intros arr i.
  - by rewrite decide_False by lia.
  - rewrite seq_S, foldl_app. cbn [foldl Nat.add].
    rewrite list_lookup_insert, init_loop_length, IH.
    repeat case_decide; try done; try lia.
    by destruct_and!; subst.
Qed.

Lemma sumZ_app l1 l2 : sumZ (l1 ++ l2) = sumZ l1 + sumZ l2.
Proof.
  unfold sumZ. induction l1 as [| z l1 IH]; simpl; [done|]. rewrite IH. lia.
Qed.

Lemma sum_fresh initial_balance k :
  sum_balances (fresh_account initial_balance <$> seq 0 k)
  = Z.of_nat k * initial_balance.
Proof.
  rewrite sum_balances_sumZ.
  induction k as [| k IH]; [done|].
  rewrite seq_S, !fmap_app, sumZ_app, IH. unfold sumZ. simpl. lia.
Qed.

Lemma init_accounts_take arr n initial_balance :
  (Z.to_nat n <= length arr)%nat ->
  take (Z.to_nat n) (init_accounts arr n initial_balance)
  = fresh_account initial_balance <$> seq 0 (Z.to_nat n).
Proof.
  intros Hn. apply list_eq. intros i. unfold init_accounts.
  rewrite lookup_take, init_loop_lookup, list_lookup_fmap.
  destruct (decide (i < Z.to_nat n)%nat) as [Hi | Hi].
  - rewrite lookup_seq_lt by done. rewrite decide_True by lia. done.
  - by rewrite lookup_seq_ge by lia.
Qed.

(** X12.  [init_accounts] on an array of at least [n] accounts: the
    first [n] accounts get the ids 0 to [n - 1] in order, the initial
    balance and a free mutex, whatever the array held; the accounts
    after them and the length of the array are unchanged. *)
Theorem init_accounts_spec arr n initial_balance :
  (Z.to_nat n <= length arr)%nat ->
  take (Z.to_nat n) (init_accounts arr n initial_balance)
    = fresh_account initial_balance <$> seq 0 (Z.to_nat n) /\
  drop (Z.to_nat n) (init_accounts arr n initial_balance)
    = drop (Z.to_nat n) arr /\
  length (init_accounts arr n initial_balance) = length arr.
Proof.
  intros Hn. split; [by apply init_accounts_take|]. split.
  - apply list_eq. intros i. unfold init_accounts.
    rewrite !lookup_drop, init_loop_lookup. by rewrite decide_False by lia.
  - apply init_loop_length.
Qed.

Lemma init_accounts_spec_witness :
  take 2 (init_accounts [Account 7 (-3) (Some 4%nat); Account 7 0 None;
                         Account 9 12 (Some 1%nat)] 2 500)
    = [Account 0 500 None; Account 1 500 None] /\
  drop 2 (init_accounts [Account 7 (-3) (Some 4%nat); Account 7 0 None;
                         Account 9 12 (Some 1%nat)] 2 500)
    = [Account 9 12 (Some 1%nat)].
Proof.
  destruct (init_accounts_spec
              [Account 7 (-3) (Some 4%nat); Account 7 0 None;
               Account 9 12 (Some 1%nat)] 2 500) as (Ht & Hd & _).
  - simpl. lia.
  - split; [exact Ht | exact Hd].
Defined.

(** X13.  Accounts fresh from [init_accounts] pass [verify_total]
    against [n] times the initial balance: it prints the total, no
    error, and returns 1. *)
Theorem fresh_accounts_verify arr n initial_balance :
  0 <= n -> (Z.to_nat n <= length arr)%nat ->
  verify_total (init_accounts arr n initial_balance) n (n * initial_balance)
  = ([Print stdout "Total balance: $%d (expected: $%d)\n"
            [AInt (n * initial_balance); AInt (n * initial_balance)]], 1).
Proof.
  intros H0 Hn. unfold verify_total.
  rewrite init_accounts_take, sum_fresh by done.
  rewrite Z2Nat.id by done. by rewrite Z.eqb_refl.
Qed.

Lemma fresh_accounts_verify_witness :
  snd (verify_total (init_accounts uninitialized_accounts 4 250) 4 (4 * 250))
  = 1.
Proof.
  rewrite (fresh_accounts_verify uninitialized_accounts 4 250).
  - reflexivity.
  - lia.
  - simpl. lia.
Defined.

(** ** The naive transfer as a function on the accounts *)

Lemma set_lock_back acc tid v :
  lock acc = None ->
  set_lock (set_balance (set_lock acc (Some tid)) v) None = set_balance acc v.
Proof. destruct acc as [i b l]. simpl. by intros ->. Qed.

(** The run of a naive transfer on two different accounts whose
    mutexes are free. *)
Lemma transfer_naive_run rnd tid from to amount s af at' :
  from <> to ->
  accounts s !! from = Some af -> lock af = None ->
  accounts s !! to = Some at' -> lock at' = None ->
  snd (run rnd tid (transfer_naive from to amount) s)
  = Done tt (Shared (<[to := set_balance at' (balance at' + amount)]>
                       (<[from := set_balance af (balance af - amount)]>
                          (accounts s)))
                    (set_counter c_successful_transfers
                       (wrap64 (successful_transfers (stats s) + 1)) (stats s))
                    (rand_calls s)).
Proof.
  intros Hne Lf Hf Lt Ht. assert (to <> from) as Hne' by done.
  unfold transfer_naive, perform_transfer, call. cbn [bind run exec_op].
  repeat first
    [ rewrite lookup_update_account
    | rewrite decide_True by done
    | rewrite decide_False by done
    | rewrite Lf | rewrite Lt | rewrite Hf | rewrite Ht
    | rewrite Nat.eqb_refl
    | progress cbn [set_lock set_balance lock balance id run exec_op snd] ].
  f_equal. unfold update_account. cbn [accounts stats rand_calls].
  f_equal. apply list_eq. intros j.
  assert (from < length (accounts s))%nat by by eapply lookup_lt_Some.
  assert (to < length (accounts s))%nat by by eapply lookup_lt_Some.
  destruct (decide (j = from)) as [-> |]; [|destruct (decide (j = to)) as [-> |]].
  - repeat first
      [ rewrite list_lookup_insert_eq by (rewrite ?length_insert; lia)
      | rewrite list_lookup_insert_ne by done ].
    f_equal. destruct af as [i b l]. simpl in *. by subst.
  - repeat first
      [ rewrite list_lookup_insert_eq by (rewrite ?length_insert; lia)
      | rewrite list_lookup_insert_ne by done ].
    f_equal. destruct at' as [i b l]. simpl in *. by subst.
  - by rewrite !list_lookup_insert_ne by done.
Qed.

(** A naive transfer that returns was called on two different
    accounts of the array with both mutexes free. *)
Lemma transfer_naive_Done_inv rnd tid from to amount s tr u s' :
  run rnd tid (transfer_naive from to amount) s = (tr, Done u s') ->
  from <> to /\
  exists af at', accounts s !! from = Some af /\ lock af = None /\
                 accounts s !! to = Some at' /\ lock at' = None.
Proof.
  unfold transfer_naive, perform_transfer, call. cbn [bind]. intros H.
  run_step H E. apply exec_lock_Ok in E as (a1 & L1 & F1 & -> & ->).
  run_step H E. injection E as <- <-.
  run_step H E. apply exec_lock_Ok in E as (a3 & L3 & F3 & -> & ->).
  clear H. rewrite lookup_update_account in L3.
  case_decide as Hft.
  - subst to. rewrite L1 in L3. injection L3 as <-. done.
  - split; [done|]. by exists a1, a3.
Qed.

Lemma credit_lookup a d accts acc :
  accts !! a = Some acc ->
  credit a d accts = <[a := set_balance acc (balance acc + d)]> accts.
Proof. unfold credit. by intros ->. Qed.

(** X14.  What a naive transfer does to the memory, for two different
    accounts with free mutexes, when the amount, the two balances and
    the two results [from->balance - amount] and [to->balance + amount]
    are in the range of [int]: it returns, having taken [amount] from
    the balance of [from] and added it to the balance of [to], both
    new balances in the range of [int]; every other account, every id
    and every mutex is as before, the success counter is one higher
    and no other counter changed.  Within that range the amount may
    be negative or larger than the balance: there is no funds
    check. *)
Theorem transfer_naive_moves_money rnd tid from to amount s bf bt :
  from <> to ->
  lock_at s from = Some None -> lock_at s to = Some None ->
  balance_at s from = Some bf -> balance_at s to = Some bt ->
  in_int amount -> in_int bf -> in_int bt ->
  in_int (bf - amount) -> in_int (bt + amount) ->
  exists s',
    snd (run rnd tid (transfer_naive from to amount) s) = Done tt s' /\
    s' = Shared (credit to amount (credit from (- amount) (accounts s)))
                (set_counter c_successful_transfers
                   (wrap64 (successful_transfers (stats s) + 1)) (stats s))
                (rand_calls s) /\
    balance_at s' from = Some (bf - amount) /\
    balance_at s' to = Some (bt + amount) /\
    (forall b, balance_at s' from = Some b -> in_int b) /\
    (forall b, balance_at s' to = Some b -> in_int b).
Proof.
  unfold lock_at, balance_at. intros Hne Hf Ht Bf Bt _ _ _ Rf Rt.
  destruct (accounts s !! from) as [af |] eqn:Lf; [|done].
  destruct (accounts s !! to) as [at' |] eqn:Lt; [|done].
  injection Hf as Hf. injection Ht as Ht.
  injection Bf as <-. injection Bt as <-.
  assert (from < length (accounts s))%nat by by eapply lookup_lt_Some.
  assert (to < length (accounts s))%nat by by eapply lookup_lt_Some.
  eexists. split; [|split; [reflexivity|]].
  - rewrite (transfer_naive_run rnd tid from to amount s af at') by done.
    rewrite (credit_lookup from _ _ af Lf).
    rewrite (credit_lookup to _ _ at')
      by (by rewrite list_lookup_insert_ne).
    by rewrite Z.add_opp_r.
  - cbn [accounts].
    rewrite (credit_lookup from _ _ af Lf).
    rewrite (credit_lookup to _ _ at')
      by (by rewrite list_lookup_insert_ne).
    rewrite list_lookup_insert_ne by done.
    rewrite !list_lookup_insert_eq by (rewrite ?length_insert; lia).
    destruct af as [i b l], at' as [i' b' l']. cbn [set_balance balance] in *.
    rewrite Z.add_opp_r.
    split; [reflexivity|]. split; [reflexivity|].
    split; intros z [= <-]; assumption.
Qed.

Lemma transfer_naive_moves_money_witness :
  exists s',
    snd (run (fun _ => 0) 0%nat (transfer_naive 1 0 (-2500)) scenario_A)
      = Done tt s' /\
    s' = Shared [Account 0 (-1500) None; Account 1 3500 None]
                (Stats 1 0 0 0) O.
Proof.
  destruct (transfer_naive_moves_money (fun _ => 0) 0%nat 1%nat 0%nat (-2500)
              scenario_A 1000 1000) as (s' & Hrun & Hs & _).
  - lia.
  - reflexivity.
  - reflexivity.
  - reflexivity.
  - reflexivity.
  - unfold in_int, INT_MIN, INT_MAX. lia.
  - unfold in_int, INT_MIN, INT_MAX. lia.
  - unfold in_int, INT_MIN, INT_MAX. lia.
  - unfold in_int, INT_MIN, INT_MAX. lia.
  - unfold in_int, INT_MIN, INT_MAX. lia.
  - exists s'. split; [exact Hrun | exact Hs].
Defined.

(** X15.  A naive transfer between two of the first [n] accounts
    never changes what [verify_total] says about them: the output
    and the result are the same before and after, for every expected
    total. *)
Theorem verify_total_after_transfer rnd tid from to amount s tr u s' n
    expected_total :
  run rnd tid (transfer_naive from to amount) s = (tr, Done u s') ->
  (from < Z.to_nat n)%nat -> (to < Z.to_nat n)%nat ->
  verify_total (accounts s') n expected_total
  = verify_total (accounts s) n expected_total.
Proof.
  intros Hrun Hfn Htn.
  destruct (transfer_naive_Done_inv _ _ _ _ _ _ _ _ _ Hrun)
    as (Hne & af & at' & Lf & Hf & Lt & Ht).
  pose proof (transfer_naive_run rnd tid from to amount s af at'
                Hne Lf Hf Lt Ht) as Hs.
  rewrite Hrun in Hs. simpl in Hs. injection Hs as _ ->.
  unfold verify_total. cbn [accounts].
  rewrite !take_insert_lt by done.
  rewrite (sum_balances_insert _ to at')
    by (rewrite list_lookup_insert_ne by done; by rewrite lookup_take_lt).
  rewrite (sum_balances_insert _ from af) by by rewrite lookup_take_lt.
  cbn [balance set_balance].
  by replace (sum_balances (take (Z.to_nat n) (accounts s)) - balance af
              + (balance af - amount) - balance at' + (balance at' + amount))
       with (sum_balances (take (Z.to_nat n) (accounts s))) by lia.
Qed.

Lemma verify_total_after_transfer_witness :
  exists s',
    snd (run (fun _ => 0) 0%nat (transfer_naive 0 1 50) scenario_A)
      = Done tt s' /\
    verify_total (accounts s') 2 2000 = verify_total (accounts scenario_A) 2 2000.
Proof.
  eexists. split; [reflexivity|].
  apply (verify_total_after_transfer (fun _ => 0) 0%nat 0%nat 1%nat 50
           scenario_A _ tt _ 2 2000 eq_refl); simpl; lia.
Defined.

(** X16.  Hold and wait: when the mutex of [from] is free and that of
    [to] is not (or [to] is [from] itself), a naive transfer takes
    the mutex of [from], pauses, and then waits at the lock of [to]
    still holding [from]; no balance has changed. *)
Theorem transfer_naive_holds_and_waits rnd tid from to amount s :
  lock_at s from = Some None ->
  (to = from \/ exists owner, lock_at s to = Some (Some owner)) ->
  exists s1,
    run rnd tid (transfer_naive from to amount) s
      = ([(pthread_mutex_lock from, 0); (usleep 1, 0)],
         Blocked (pthread_mutex_lock to) s1) /\
    lock_at s1 from = Some (Some tid) /\
    forall a, balance_at s1 a = balance_at s a.
Proof.
  unfold lock_at. intros Hf Hto.
  destruct (accounts s !! from) as [af |] eqn:Lf; [|done].
  injection Hf as Hf.
  exists (update_account s from (set_lock af (Some tid))).
  split; [|split].
  - unfold transfer_naive, call. cbn [bind run exec_op].
    rewrite Lf, Hf. cbn [run exec_op]. rewrite lookup_update_account.
    destruct Hto as [-> | [owner Ho]].
    + rewrite decide_True, Lf by done. done.
    + case_decide as Hft.
      * subst to. rewrite Lf in *. done.
      * destruct (accounts s !! to) as [at' |]; [|done].
        injection Ho as ->. done.
  - rewrite lookup_update_account, decide_True, Lf by done. done.
  - intros a. unfold balance_at. rewrite lookup_update_account.
    case_decide as Ha; [|done]. subst a. by rewrite Lf.
Qed.

Lemma transfer_naive_holds_and_waits_witness :
  exists s1,
    run (fun _ => 0) 0%nat (transfer_naive 0 0 50) scenario_A
      = ([(pthread_mutex_lock 0, 0); (usleep 1, 0)],
         Blocked (pthread_mutex_lock 0) s1) /\
    lock_at s1 0%nat = Some (Some 0%nat).
Proof.
  destruct (transfer_naive_holds_and_waits (fun _ => 0) 0%nat 0%nat 0%nat 50
              scenario_A) as (s1 & Hrun & Hl & _).
  - reflexivity.
  - left. reflexivity.
  - exists s1. split; [exact Hrun | exact Hl].
Defined.

(** ** The options of [main] *)

(** X17.  The option loop of [main]: when every option character is
    one of [t], [n], [m], each of the three settings is the argument
    of the last option that names it, or its initial value when no
    option names it, in whatever order the options come; otherwise
    the result is the usage message, whatever the other options
    are. *)
Theorem parse_options_last_wins argv0 opts : forall nt tp m,
  parse_options argv0 opts nt tp m
  = if forallb (fun o => recognized (opt o)) opts
    then inr (last_optarg "t" opts nt, last_optarg "n" opts tp,
              last_optarg "m" opts m)
    else inl (usage_message argv0).
Proof.
  induction opts as [| [c z] opts IH]; intros nt tp m; [done|].
  cbn [parse_options forallb opt optarg]. unfold recognized at 1, last_optarg.
  cbn [foldl opt optarg]. fold (last_optarg "t"). fold (last_optarg "n").
  fold (last_optarg "m").
  destruct (Ascii.eqb_spec c "t") as [-> | Ht]; [by rewrite IH|].
  destruct (Ascii.eqb_spec c "n") as [-> | Hn]; [by rewrite IH|].
  destruct (Ascii.eqb_spec c "m") as [-> | Hm]; [by rewrite IH|].
  done.
Qed.
